(** * The Redis sink of eKuiper (internal/io/redis/sink.go)

    A shallow embedding of the sink: its configuration, the validation of
    a property map, the health check, and the function [save] that turns
    one tuple into Redis commands. The Go code threads three things
    through its calls, and the model keeps them in one explicit state:
    the sink object itself (the pointer receiver [r]), the calls made on
    Redis clients, and the lines handed to the logger. *)

From Stdlib Require Import ZArith.
From stdpp Require Import base strings gmap list pretty.

Local Open Scope Z_scope.
Local Open Scope string_scope.

(** ** Values and tuples *)

(** A Go value of static type [any], as a tagged union. [Other] stands for
    a value of a type that has no string conversion; only a description of
    it is kept. *)
Inductive any : Type :=
  | Bool (b : bool)
  | Int (n : Z)
  | Str (s : string)
  | Other (goType : string).

(** [map[string]any]: a tuple handed to the sink, and also a property map. *)
Abbreviation MapAny := (gmap string any).

(** ** Errors *)

(** Go [error] values. The text built by [fmt.Errorf] is kept as a
    constructor together with the arguments of the format, so that the
    origin of an error stays visible. [LibError] is an error made by a
    library (encoding/json, go-redis, cast.MapToStruct) and passed on
    untouched. *)
Inductive error : Type :=
  | LibError (msg : string)
  | ErrDbRange                                        (* sink.go:87 *)
  | ErrNoKeyOrField                                   (* sink.go:90 *)
  | ErrKeyType                                        (* sink.go:93 *)
  | ErrDataType                                       (* sink.go:96 *)
  | ErrFieldMissing (field : string) (data : MapAny)  (* sink.go:160 *)
  | ErrKeyConversion (keyval : any)                   (* sink.go:164 *)
  | ErrRowkindNotString (field : string) (data : MapAny) (* sink.go:176 *)
  | ErrInvalidRowkind (rowkind : string)              (* sink.go:179 *)
  | ErrLPush (key val : string) (err : error)         (* sink.go:191 *)
  | ErrSet (key val : string) (err : error)           (* sink.go:197 *)
  | ErrLPop (key : string) (err : error)              (* sink.go:205 *)
  | ErrCannotConvert (input : any).                   (* cast.ToString *)

(** A Go result pair [(value, error)] of which exactly one side is used. *)
Inductive result (A : Type) : Type :=
  | Ok (a : A)
  | Fail (e : error).
Arguments Ok {A} a.
Arguments Fail {A} e.

(** ** Configuration (sink.go:31-50) *)

Record config : Type := mkConfig {
  Addr : string;
  Username : string;
  Password : string;
  Db : Z;
  Field : string;
  Key : string;
  KeyType : string;
  DataType : string;
  Expiration : Z;
  RowkindField : string;
  DataTemplate : string;
  Fields : list string;
  DataField : string
}.

(** [&config{DataType: "string", Expiration: -1, KeyType: "single"}]
    (sink.go:81); every other field has Go's zero value. *)
Definition default_config : config :=
  {| Addr := ""; Username := ""; Password := ""; Db := 0; Field := "";
     Key := ""; KeyType := "single"; DataType := "string"; Expiration := -1;
     RowkindField := ""; DataTemplate := ""; Fields := []; DataField := "" |}.

(** ** Calls on the Redis client *)

(** [redis.Options] as filled in at sink.go:65-70 and 106-111. *)
Record Options : Type := mkOptions {
  oAddr : string;
  oUsername : string;
  oPassword : string;
  oDB : Z
}.

Definition options_of (c : config) : Options :=
  {| oAddr := Addr c; oUsername := Username c; oPassword := Password c;
     oDB := Db c |}.

(** The four data commands [save] issues. *)
Inductive Cmd : Type :=
  | LPush (key val : string)
  | Set_ (key val : string) (expiration : Z)
  | LPop (key : string)
  | Del (key : string).

(** Everything the sink does with go-redis. A client is named by a number:
    the n-th client made by [redis.NewClient] has handle n. *)
Inductive Call : Type :=
  | NewClient (o : Options)
  | PingOn (cl : nat)
  | CmdOn (cl : nat) (cmd : Cmd)
  | CloseOn (cl : nat).

Definition is_NewClient (x : Call) : bool :=
  match x with NewClient _ => true | _ => false end.

(** ** Log lines *)

Inductive LogEntry : Type :=
  | LDebug (msg : string)
  | LDebugf (what key val : string)
  | LInfof (msg : string)
  | LError (e : error)
  | LErrorf (what arg : string).

(** ** What lies outside the file

    [encoding/json], go-redis and the order in which [range] walks a map
    are not part of the sink. They are taken as an interface; every
    theorem holds for every implementation of it. *)
Class GoEnv : Type := {
  (** [json.Marshal] of a tuple: the text, or the message of its error. *)
  json_Marshal : MapAny → string + string;
  (** [cast.MapToStruct props c]: the config [c] overwritten from the
      property map, or the message of the decoding error. *)
  cast_MapToStruct : MapAny → config → config + string;
  (** The error, if any, with which Redis answers a call, given the calls
      made before it. *)
  redis_err : list Call → Call → option string;
  (** The order in which a [range] loop visits a map. Go fixes no order;
      [save] walks each of its two maps once, and no result below rests on
      two walks of one map agreeing. *)
  range : ∀ {V : Type}, gmap string V → list (string * V);
  (** Every entry is visited once. *)
  range_perm : ∀ (V : Type) (m : gmap string V), range m ≡ₚ map_to_list m
}.

(** ** Parts of the repository that are not in the file *)

(** Modelled from the spec: the constants [ast.RowkindInsert],
    [ast.RowkindUpdate], [ast.RowkindUpsert] and [ast.RowkindDelete] of
    package pkg/ast, which the spec lists as the kinds insert, update,
    upsert and delete. *)
Definition RowkindInsert : string := "insert".
Definition RowkindUpdate : string := "update".
Definition RowkindUpsert : string := "upsert".
Definition RowkindDelete : string := "delete".

(** Modelled from the spec: [cast.ToString(input, cast.CONVERT_ALL)] of
    package pkg/cast. The spec asks for the string representation of the
    value (a string is itself, the number 1 is "1"), and for a failed
    conversion to come with the empty string. *)
Definition cast_ToString (input : any) : string * option error :=
  match input with
  | Str s => (s, None)
  | Int n => (pretty n, None)
  | Bool b => (if b then "true" else "false", None)
  | Other _ => ("", Some (ErrCannotConvert input))
  end.

(** ** The state threaded through the sink's methods *)

Record State : Type := mkState {
  r_c : option config;      (* r.c, nil until Validate has succeeded *)
  r_cli : option nat;       (* r.cli, nil until Connect *)
  calls : list Call;        (* calls made on go-redis so far *)
  logs : list LogEntry;     (* lines given to the logger so far *)
  notices : list (bool * string) (* calls of the status change handler *)
}.

Definition set_r_c (c : config) (s : State) : State :=
  mkState (Some c) (r_cli s) (calls s) (logs s) (notices s).
Definition set_r_cli (cl : nat) (s : State) : State :=
  mkState (r_c s) (Some cl) (calls s) (logs s) (notices s).
Definition add_call (x : Call) (s : State) : State :=
  mkState (r_c s) (r_cli s) (calls s ++ [x]) (logs s) (notices s).
Definition add_log (l : LogEntry) (s : State) : State :=
  mkState (r_c s) (r_cli s) (calls s) (logs s ++ [l]) (notices s).
Definition add_notice (n : bool * string) (s : State) : State :=
  mkState (r_c s) (r_cli s) (calls s) (logs s) (notices s ++ [n]).

(** A method either returns, leaving a new state, or panics on a nil
    pointer. *)
Inductive res (A : Type) : Type :=
  | Done (a : A) (s : State)
  | Panic.
Arguments Done {A} a s.
Arguments Panic {A}.

Definition M (A : Type) : Type := State → res A.

Definition ret {A} (a : A) : M A := λ s, Done a s.
Definition bind {A B} (m : M A) (k : A → M B) : M B :=
  λ s, match m s with Done a s' => k a s' | Panic => Panic end.

Declare Scope go_scope.
Delimit Scope go_scope with go.
Notation "x <- m ;; k" := (bind m (λ x, k))
  (at level 100, m at next level, right associativity) : go_scope.
Notation "m ;; k" := (bind m (λ _, k))
  (at level 100, right associativity) : go_scope.
Local Open Scope go_scope.

(** [r.c], dereferenced. *)
Definition get_c : M config :=
  λ s, match r_c s with Some c => Done c s | None => Panic end.
(** [r.cli], dereferenced. *)
Definition get_cli : M nat :=
  λ s, match r_cli s with Some cl => Done cl s | None => Panic end.

Definition log (l : LogEntry) : M unit := λ s, Done tt (add_log l s).
Definition notify (connected : bool) (why : string) : M unit :=
  λ s, Done tt (add_notice (connected, why) s).

Section Sink.
Context `{GoEnv}.

(** One call on a client: it is recorded, and Redis answers with an error
    or with none. *)
Definition call (x : Call) : M (option error) :=
  λ s, Done (LibError <$> redis_err (calls s) x) (add_call x s).

(** [redis.NewClient(&redis.Options{...})]: never fails, hands back a new
    client. *)
Definition redis_NewClient (o : Options) : M nat :=
  λ s, Done (length (filter (λ x, is_NewClient x = true) (calls s)))
            (add_call (NewClient o) s).

(** ** Validate (sink.go:80-100) *)
Definition Validate (props : MapAny) : M (option error) :=
  match cast_MapToStruct props default_config with
  | inr msg => ret (Some (LibError msg))
  | inl c =>
      if ((Db c <? 0) || (Db c >? 15))%Z then ret (Some ErrDbRange)
      else if String.eqb (KeyType c) "single" && String.eqb (Key c) ""
              && String.eqb (Field c) "" then ret (Some ErrNoKeyOrField)
      else if negb (String.eqb (KeyType c) "single")
              && negb (String.eqb (KeyType c) "multiple") then ret (Some ErrKeyType)
      else if negb (String.eqb (DataType c) "string")
              && negb (String.eqb (DataType c) "list") then ret (Some ErrDataType)
      else (λ s, Done None (set_r_c c s))
  end.

(** ** Provision (sink.go:57-59) *)
Definition Provision (props : MapAny) : M (option error) := Validate props.

(** ** Connect (sink.go:61-78) *)
Definition Connect : M (option error) :=
  log (LDebug "Opening redis sink");;
  c <- get_c;;
  cl <- redis_NewClient (options_of c);;
  (λ s, Done tt (set_r_cli cl s));;
  err <- call (PingOn cl);;
  match err with
  | Some e =>
      notify false (match e with LibError msg => msg | _ => "" end);;
      ret (Some e)
  | None => notify true "";; ret None
  end.

(** ** Ping (sink.go:102-117) *)
Definition Ping (props : MapAny) : M (option error) :=
  verr <- Validate props;;
  match verr with
  | Some e => ret (Some e)
  | None =>
      c <- get_c;;
      cl <- redis_NewClient (options_of c);;
      err <- call (PingOn cl);;
      (* the deferred function runs as Ping returns; the error of Close is dropped *)
      call (CloseOn cl);;
      ret err
  end.

(** ** Close (sink.go:135-139) *)
Definition Close : M (option error) :=
  log (LInfof "Closing redis sink");;
  cl <- get_cli;;
  call (CloseOn cl).

(** ** save (sink.go:141-222)

    The body of [save] has three blocks, each under a comment of its own
    in the source; they are kept apart here. The first two touch neither
    the client nor the logger. *)

(** "prepare key value pairs" (sink.go:144-168): the map [values]. *)
Definition save_values (c : config) (data : MapAny) : result (gmap string string) :=
  if KeyType c =? "multiple" then
    Ok (foldl (λ values kv, <[kv.1 := (cast_ToString kv.2).1]> values)
              ∅ (range data))
  else
    match json_Marshal data with
    | inr msg => Fail (LibError msg)
    | inl val =>
        if negb (Field c =? "") then
          match data !! Field c with
          | None => Fail (ErrFieldMissing (Field c) data)
          | Some keyval =>
              match cast_ToString keyval with
              | (key, None) => Ok (<[key := val]> ∅)
              | (_, Some _) => Fail (ErrKeyConversion keyval)
              end
          end
        else Ok (<[Key c := val]> ∅)
    end.

(** "get action type" (sink.go:170-182): the variable [rowkind]. *)
Definition save_rowkind (c : config) (data : MapAny) : result string :=
  if negb (RowkindField c =? "") then
    match data !! RowkindField c with
    | Some (Str rowkind) =>
        if negb (rowkind =? RowkindInsert) && negb (rowkind =? RowkindUpdate)
           && negb (rowkind =? RowkindDelete) && negb (rowkind =? RowkindUpsert)
        then Fail (ErrInvalidRowkind rowkind)
        else Ok rowkind
    | Some _ => Fail (ErrRowkindNotString (RowkindField c) data)
    | None => Ok RowkindUpsert
    end
  else Ok RowkindUpsert.

(** What the spec calls resolution: the first two blocks, giving the
    key/value pairs and the one row kind they share. *)
Definition resolve (c : config) (data : MapAny) : result (gmap string string * string) :=
  match save_values c data with
  | Fail e => Fail e
  | Ok values =>
      match save_rowkind c data with
      | Fail e => Fail e
      | Ok rowkind => Ok (values, rowkind)
      end
  end.

(** The body of the loop "set key value pairs" (sink.go:185-219) for one
    pair. It answers [Some e] where the source returns [e] out of [save],
    and [None] where the loop goes on. *)
Definition save_write (c : config) (rowkind key val : string) : M (option error) :=
  if (rowkind =? RowkindInsert) || (rowkind =? RowkindUpdate)
     || (rowkind =? RowkindUpsert) then
    if DataType c =? "list" then
      cl <- get_cli;;
      err <- call (CmdOn cl (LPush key val));;
      match err with
      | Some e => ret (Some (ErrLPush key val e))
      | None => log (LDebugf "push redis list success" key val);; ret None
      end
    else
      cl <- get_cli;;
      err <- call (CmdOn cl (Set_ key val (Expiration c)));;
      match err with
      | Some e => ret (Some (ErrSet key val e))
      | None => log (LDebugf "set redis string success" key val);; ret None
      end
  else if rowkind =? RowkindDelete then
    if DataType c =? "list" then
      cl <- get_cli;;
      err <- call (CmdOn cl (LPop key));;
      match err with
      | Some e => ret (Some (ErrLPop key e))
      | None => log (LDebugf "pop redis list success" key val);; ret None
      end
    else
      cl <- get_cli;;
      err <- call (CmdOn cl (Del key));;
      match err with
      | Some e => log (LError e);; ret (Some e)
      | None => log (LDebugf "delete redis string success" key val);; ret None
      end
  else
    log (LErrorf "unexpected rowkind" rowkind);; ret None.

(** The loop itself (sink.go:184-220), over the pairs in the order in
    which [range] hands them out. *)
Fixpoint save_loop (c : config) (rowkind : string) (kvs : list (string * string))
  : M (option error) :=
  match kvs with
  | [] => ret None
  | (key, val) :: rest =>
      err <- save_write c rowkind key val;;
      match err with
      | Some e => ret (Some e)
      | None => save_loop c rowkind rest
      end
  end.

Definition save (data : MapAny) : M (option error) :=
  c <- get_c;;
  match resolve c data with
  | Fail e => ret (Some e)
  | Ok (values, rowkind) => save_loop c rowkind (range values)
  end.

(** ** Collect (sink.go:119-121); [item.ToMap()] is the tuple itself. *)
Definition Collect (item : MapAny) : M (option error) := save item.

(** [items.RangeOfTuples(f)] of the engine's tuple lists: [f] is called on
    each tuple with its index, in order, until it answers false. *)
Fixpoint RangeOfTuples (f : nat → MapAny → M bool) (i : nat) (items : list MapAny)
  : M unit :=
  match items with
  | [] => ret tt
  | tuple :: rest =>
      more <- f i tuple;;
      if more then RangeOfTuples f (S i) rest else ret tt
  end.

(** ** CollectList (sink.go:123-133) *)
Definition CollectList (items : list MapAny) : M (option error) :=
  RangeOfTuples (λ _ tuple,
    err <- save tuple;;
    match err with
    | Some e => log (LError e);; ret true
    | None => ret true
    end) 0%nat items;;
  ret None.

End Sink.

(** ** Environments on which the model runs

    Go's own [json.Marshal], decoder and Redis are among the
    implementations of [GoEnv]; the small ones below serve to evaluate the
    sink on concrete tuples. *)

(** The double quote, as a string. *)
Definition quote : string := String (Ascii.ascii_of_nat 34) "".

Definition sample_json_value (v : any) : string :=
  match v with
  | Bool b => if b then "true" else "false"
  | Int n => pretty n
  | Str s => quote ++ s ++ quote
  | Other _ => "null"
  end.

Definition is_Other (v : any) : bool :=
  match v with Other _ => true | _ => false end.

(** An encoder for flat tuples: an object with one member per field;
    a value of an unsupported type makes it fail, as [json.Marshal] does
    on a channel or a function. *)
Definition sample_json (data : MapAny) : string + string :=
  if existsb (λ kv, is_Other kv.2) (map_to_list data)
  then inr "json: unsupported type"
  else inl ("{" ++ String.concat ","
                     ((λ kv, quote ++ kv.1 ++ quote ++ ":" ++ sample_json_value kv.2)
                        <$> map_to_list data) ++ "}").

Definition decode_string (props : MapAny) (name : string) (old : string) : string + string :=
  match props !! name with
  | None => inl old
  | Some (Str s) => inl s
  | Some _ => inr ("cannot decode option " ++ name)
  end.

Definition decode_int (props : MapAny) (name : string) (old : Z) : Z + string :=
  match props !! name with
  | None => inl old
  | Some (Int n) => inl n
  | Some _ => inr ("cannot decode option " ++ name)
  end.

(** The text [sample_json] gives for a tuple it can encode. *)
Definition json_text (data : MapAny) : string :=
  match sample_json data with inl js => js | inr _ => "" end.

(** A decoder for the options the sink reads: a name that is present
    overwrites the field, a value of the wrong type is an error. *)
Definition sample_MapToStruct (props : MapAny) (c : config) : config + string :=
  match decode_string props "addr" (Addr c), decode_int props "db" (Db c),
        decode_string props "field" (Field c), decode_string props "key" (Key c),
        decode_string props "keyType" (KeyType c),
        decode_string props "dataType" (DataType c),
        decode_string props "rowkindField" (RowkindField c) with
  | inl addr, inl db, inl field, inl key, inl keyType, inl dataType, inl rowkindField =>
      inl {| Addr := addr; Username := Username c; Password := Password c;
             Db := db; Field := field; Key := key; KeyType := keyType;
             DataType := dataType; Expiration := Expiration c;
             RowkindField := rowkindField; DataTemplate := DataTemplate c;
             Fields := Fields c; DataField := DataField c |}
  | _, _, _, _, _, _, _ => inr "cannot decode the properties"
  end.

(** A Redis that answers every call without error. *)
Definition healthy_env : GoEnv :=
  {| json_Marshal := sample_json;
     cast_MapToStruct := sample_MapToStruct;
     redis_err := λ _ _, None;
     range := λ V m, map_to_list m;
     range_perm := λ V m, reflexivity (map_to_list m) |}.

(** A Redis that cannot be reached: every ping and every command fails. *)
Definition unreachable_env : GoEnv :=
  {| json_Marshal := sample_json;
     cast_MapToStruct := sample_MapToStruct;
     redis_err := λ _ x, match x with
                         | PingOn _ | CmdOn _ _ => Some "connection refused"
                         | _ => None
                         end;
     range := λ V m, map_to_list m;
     range_perm := λ V m, reflexivity (map_to_list m) |}.

(** The state of a sink that was never provisioned, and of one that was
    provisioned with [c] and connected as client 0. *)
Definition fresh : State := mkState None None [] [] [].
Definition ready (c : config) : State :=
  mkState (Some c) (Some 0%nat) [NewClient (options_of c); PingOn 0] []
          [(true, "")].

(** ** Reading commands and errors *)

Definition cmd_key (cmd : Cmd) : string :=
  match cmd with
  | LPush key _ | Set_ key _ _ | LPop key | Del key => key
  end.

Definition is_Del (cmd : Cmd) : bool :=
  match cmd with Del _ => true | _ => false end.

(** The error of the store inside an error of [save]. *)
Definition error_cause (e : error) : error :=
  match e with
  | ErrLPush _ _ err | ErrSet _ _ err | ErrLPop _ err => err
  | _ => e
  end.

(** The key an error of [save] names, if it names one. *)
Definition error_key (e : error) : option string :=
  match e with
  | ErrLPush key _ _ | ErrSet key _ _ | ErrLPop key _ => Some key
  | _ => None
  end.

(** The errors the spec calls MissingFieldError and InvalidRowKindError. *)
Definition MissingFieldError (e : error) : Prop :=
  match e with ErrFieldMissing _ _ => True | _ => False end.
Definition InvalidRowKindError (e : error) : Prop :=
  match e with
  | ErrRowkindNotString _ _ | ErrInvalidRowkind _ => True
  | _ => False
  end.

(** The four row kinds. *)
Definition is_rowkind (rowkind : string) : Prop :=
  rowkind = RowkindInsert ∨ rowkind = RowkindUpdate
  ∨ rowkind = RowkindUpsert ∨ rowkind = RowkindDelete.

(** ** Configurations and tuples used in the examples *)

Definition with_keys (keyType key field rowkindField dataType : string) : config :=
  {| Addr := "localhost:6379"; Username := ""; Password := ""; Db := 0;
     Field := field; Key := key; KeyType := keyType; DataType := dataType;
     Expiration := -1; RowkindField := rowkindField; DataTemplate := "";
     Fields := []; DataField := "" |}.

Definition cfg_multiple : config := with_keys "multiple" "" "" "" "string".
Definition cfg_multiple_op : config := with_keys "multiple" "" "" "op" "string".
Definition cfg_single_op : config := with_keys "single" "k" "" "op" "string".
Definition cfg_single_id : config := with_keys "single" "" "id" "" "string".
Definition cfg_single_id_op : config := with_keys "single" "" "id" "op" "string".
Definition cfg_list_op : config := with_keys "single" "k" "" "op" "list".

Definition tuple_ab : MapAny := {[ "a" := Int 1; "b" := Str "x" ]}.
Definition tuple_ann : MapAny := {[ "id" := Str "u1"; "name" := Str "Ann" ]}.
Definition tuple_archive : MapAny := {[ "op" := Str "archive" ]}.
Definition tuple_delete : MapAny := {[ "op" := Str "delete" ]}.
Definition tuple_chan : MapAny := {[ "a" := Int 1; "c" := Other "chan int" ]}.

Definition props_db (n : Z) : MapAny := {[ "key" := Str "k"; "db" := Int n ]}.

(** ** The life of a sink *)

(** [GetSink()] (sink.go:224-226): a new sink, [&RedisSink{}], with neither
    config nor client, in a world [w] that may already have seen calls. *)
Definition GetSink (w : State) : State :=
  mkState None None (calls w) (logs w) (notices w).

(** The number of clients [redis.NewClient] has made so far; it is the
    handle of the next one. *)
Definition clients (s : State) : nat :=
  length (filter (λ x, is_NewClient x = true) (calls s)).

(** What the four checks of [Validate] (sink.go:86-97) let through. *)
Definition valid_config (c : config) : Prop :=
  (0 ≤ Db c ≤ 15)%Z
  ∧ (KeyType c = "single" → Key c ≠ "" ∨ Field c ≠ "")
  ∧ (KeyType c = "single" ∨ KeyType c = "multiple")
  ∧ (DataType c = "string" ∨ DataType c = "list").

(** [s'] differs from [s] at most by log lines and by data commands sent
    on the client of the sink. *)
Definition wrote_only (s s' : State) : Prop :=
  r_c s' = r_c s ∧ r_cli s' = r_cli s ∧ notices s' = notices s
  ∧ ∃ new, calls s' = (calls s ++ new)%list
           ∧ ∀ x, x ∈ new → ∃ cl cmd, r_cli s = Some cl ∧ x = CmdOn cl cmd.

(** The methods the engine calls on a sink. *)
Inductive Method : Type :=
  | DoProvision (props : MapAny)
  | DoConnect
  | DoPing (props : MapAny)
  | DoCollect (item : MapAny)
  | DoCollectList (items : list MapAny)
  | DoClose.

Section Life.
Context `{GoEnv}.

Definition invoke (m : Method) : M (option error) :=
  match m with
  | DoProvision props => Provision props
  | DoConnect => Connect
  | DoPing props => Ping props
  | DoCollect item => Collect item
  | DoCollectList items => CollectList items
  | DoClose => Close
  end.

(** The states a sink can be in: those of a new sink, and those a method
    that returned has left. *)
Inductive reachable : State → Prop :=
  | reach_new w : reachable (GetSink w)
  | reach_step s m out s' :
      reachable s → invoke m s = Done out s' → reachable s'.

End Life.

(** ** More states and worlds for the examples *)

(** An encoder that writes [null] for a value it has no form for, where
    [sample_json] fails; [json.Marshal] encodes many values that have no
    string conversion, a slice for one. *)
Definition tolerant_json (data : MapAny) : string + string :=
  inl ("{" ++ String.concat ","
                ((λ kv, quote ++ kv.1 ++ quote ++ ":" ++ sample_json_value kv.2)
                   <$> map_to_list data) ++ "}").

Definition tolerant_env : GoEnv :=
  {| json_Marshal := tolerant_json;
     cast_MapToStruct := sample_MapToStruct;
     redis_err := λ _ _, None;
     range := λ V m, map_to_list m;
     range_perm := λ V m, reflexivity (map_to_list m) |}.

(** A new sink after [Provision] with the static key k and [Connect], in
    the healthy world. *)
Definition connected_sink : State :=
  match @Provision healthy_env (props_db 0) (GetSink fresh) with
  | Done _ s1 =>
      match @Connect healthy_env s1 with
      | Done _ s2 => s2
      | Panic => s1
      end
  | Panic => fresh
  end.

(** A sink that holds the config [c] and was never connected. *)
Definition provisioned (c : config) : State := set_r_c c (GetSink fresh).

Definition tuple_slice_id : MapAny := {[ "id" := Other "[]any"; "a" := Int 1 ]}.

(** ** The dispatch table of the spec, and the answers of Redis *)

(** The table of section 4.1 of the spec, row by row: [cmd] is the store
    operation for the pair [key], [val] under the row kind and the data
    type. *)
Definition spec_dispatch (rowkind dataType : string) (expiration : Z)
    (key val : string) (cmd : Cmd) : Prop :=
  ((rowkind = "insert" ∨ rowkind = "update" ∨ rowkind = "upsert")
   ∧ ((dataType = "string" ∧ cmd = Set_ key val expiration)
      ∨ (dataType = "list" ∧ cmd = LPush key val)))
  ∨ (rowkind = "delete"
     ∧ ((dataType = "string" ∧ cmd = Del key)
        ∨ (dataType = "list" ∧ cmd = LPop key))).

Section Answers.
Context `{GoEnv}.

(** Redis answers each of [cmds], sent one after the other on the client
    [cl] after the calls of [history], without error. *)
Fixpoint all_accepted (history : list Call) (cl : nat) (cmds : list Cmd) : Prop :=
  match cmds with
  | [] => True
  | cmd :: rest =>
      redis_err history (CmdOn cl cmd) = None
      ∧ all_accepted (history ++ [CmdOn cl cmd]) cl rest
  end.

End Answers.

(** * Properties *)

(** Unfolds the plumbing of [M] in the goal. *)
Ltac run :=
  unfold bind, ret, get_c, get_cli, call, log; cbn.

Section Facts.
Context `{GoEnv}.

(** ** The walk over a map *)

Lemma range_elem {V} (m : gmap string V) k v : (k, v) ∈ range m ↔ m !! k = Some v.
Proof. rewrite (range_perm V m). apply elem_of_map_to_list. Qed.

Lemma range_NoDup {V} (m : gmap string V) : NoDup (range m).*1.
Proof. rewrite (range_perm V m). apply NoDup_fst_map_to_list. Qed.

Lemma range_empty {V} : range (∅ : gmap string V) = [].
Proof.
  apply Permutation_nil_r. rewrite (range_perm V ∅). by rewrite map_to_list_empty.
Qed.

(** Writing the converted fields one by one, in whatever order, fills
    [values] with the conversion of every field. *)
Lemma fill_skip {V} (f : V → string) l (acc : gmap string string) k :
  k ∉ l.*1 →
  foldl (λ values kv, <[kv.1 := f kv.2]> values) acc l !! k = acc !! k.
Proof.
  revert acc. induction l as [|[k' v'] l IH]; intros acc Hk; [done|].
  cbn in Hk. apply not_elem_of_cons in Hk as [Hne Hk].
  cbn. rewrite IH by done. by rewrite lookup_insert_ne.
Qed.

Lemma fill_hit {V} (f : V → string) l (acc : gmap string string) k v :
  NoDup l.*1 → (k, v) ∈ l →
  foldl (λ values kv, <[kv.1 := f kv.2]> values) acc l !! k = Some (f v).
Proof.
  revert acc. induction l as [|[k' v'] l IH]; intros acc Hnd Hin.
  - by apply elem_of_nil in Hin.
  - cbn in Hnd. apply NoDup_cons in Hnd as [Hfresh Hnd].
    apply elem_of_cons in Hin as [Heq|Hin].
    + injection Heq as -> ->. cbn. rewrite fill_skip by done.
      by rewrite lookup_insert_eq.
    + cbn. by apply IH.
Qed.

Lemma fill_range (data : MapAny) :
  foldl (λ values kv, <[kv.1 := (cast_ToString kv.2).1]> values) ∅ (range data)
  = (λ v, (cast_ToString v).1) <$> data.
Proof.
  apply map_eq. intros k. rewrite lookup_fmap.
  destruct (data !! k) as [v|] eqn:Hk; cbn.
  - apply (fill_hit (λ v, (cast_ToString v).1)); [apply range_NoDup|].
    by apply range_elem.
  - rewrite (fill_skip (λ v, (cast_ToString v).1)); [done|].
    intros Hin. apply list_elem_of_fmap in Hin as [[k' v] [-> Hin]].
    apply range_elem in Hin. cbn in Hk. congruence.
Qed.

(** ** The two pure blocks of [save] *)

Lemma eqb_true (a b : string) : a = b → (a =? b) = true.
Proof. intros ->. apply String.eqb_refl. Qed.

Lemma eqb_false (a b : string) : a ≠ b → (a =? b) = false.
Proof. intros Hne. by apply String.eqb_neq. Qed.

Lemma save_values_multiple c data :
  KeyType c = "multiple" →
  save_values c data = Ok ((λ v, (cast_ToString v).1) <$> data).
Proof.
  intros Hk. unfold save_values. rewrite (eqb_true _ _ Hk). by rewrite fill_range.
Qed.

Lemma save_rowkind_valid c data rowkind :
  save_rowkind c data = Ok rowkind → is_rowkind rowkind.
Proof.
  unfold save_rowkind, is_rowkind.
  destruct (RowkindField c =? ""); cbn; [intros [= <-]; auto|].
  destruct (data !! RowkindField c) as [[| |rk|]|]; try done; [|intros [= <-]; auto].
  destruct (rk =? RowkindInsert) eqn:E1; cbn.
  { intros [= <-]. apply String.eqb_eq in E1. auto. }
  destruct (rk =? RowkindUpdate) eqn:E2; cbn.
  { intros [= <-]. apply String.eqb_eq in E2. auto. }
  destruct (rk =? RowkindDelete) eqn:E3; cbn.
  { intros [= <-]. apply String.eqb_eq in E3. auto. }
  destruct (rk =? RowkindUpsert) eqn:E4; cbn; [|done].
  intros [= <-]. apply String.eqb_eq in E4. auto.
Qed.

Lemma save_rowkind_absent c data :
  RowkindField c = "" ∨ data !! RowkindField c = None →
  save_rowkind c data = Ok RowkindUpsert.
Proof.
  unfold save_rowkind. intros [-> | Hnone]; [done|].
  rewrite Hnone. by destruct (RowkindField c =? "").
Qed.

Lemma save_rowkind_present c data v :
  RowkindField c ≠ "" → data !! RowkindField c = Some v →
  (∀ rowkind, v = Str rowkind → is_rowkind rowkind →
     save_rowkind c data = Ok rowkind)
  ∧ ((∀ rowkind, v = Str rowkind → ¬ is_rowkind rowkind) →
     ∃ e, save_rowkind c data = Fail e ∧ InvalidRowKindError e).
Proof.
  intros Hf Hv. unfold save_rowkind. rewrite (eqb_false _ _ Hf), Hv. cbn. split.
  - intros rk -> Hrk.
    destruct Hrk as [-> | [-> | [-> | ->]]]; reflexivity.
  - intros Hbad. destruct v as [b|n|rk|t]; try (eexists; split; [reflexivity|exact I]).
    destruct (rk =? RowkindInsert) eqn:E1; cbn.
    { apply String.eqb_eq in E1. destruct (Hbad rk eq_refl). unfold is_rowkind; auto. }
    destruct (rk =? RowkindUpdate) eqn:E2; cbn.
    { apply String.eqb_eq in E2. destruct (Hbad rk eq_refl). unfold is_rowkind; auto. }
    destruct (rk =? RowkindDelete) eqn:E3; cbn.
    { apply String.eqb_eq in E3. destruct (Hbad rk eq_refl). unfold is_rowkind; auto. }
    destruct (rk =? RowkindUpsert) eqn:E4; cbn.
    { apply String.eqb_eq in E4. destruct (Hbad rk eq_refl). unfold is_rowkind; auto. }
    eexists; split; [reflexivity|exact I].
Qed.

(** ** The loop of [save] *)

(** One turn of the loop, on a connected sink and with one of the four row
    kinds: one command goes to the client, on the key of the pair; the
    turn ends [save] exactly when Redis answers that command with an
    error. *)
Lemma save_write_run c rowkind key val s cl :
  r_cli s = Some cl → is_rowkind rowkind →
  ∃ cmd out s',
    save_write c rowkind key val s = Done out s'
    ∧ cmd_key cmd = key
    ∧ calls s' = (calls s ++ [CmdOn cl cmd])%list
    ∧ r_c s' = r_c s ∧ r_cli s' = r_cli s
    ∧ match out with
      | None => redis_err (calls s) (CmdOn cl cmd) = None
      | Some e => ∃ msg,
          redis_err (calls s) (CmdOn cl cmd) = Some msg
          ∧ error_cause e = LibError msg
          ∧ (is_Del cmd = false → error_key e = Some key)
      end.
Proof.
  intros Hcl Hrk. unfold save_write.
  destruct Hrk as [-> | [-> | [-> | ->]]]; cbn;
    destruct (DataType c =? "list"); run; rewrite Hcl;
    match goal with
    | |- context [redis_err (calls s) (CmdOn cl ?cmd)] =>
        exists cmd; destruct (redis_err (calls s) (CmdOn cl cmd)) as [msg|] eqn:E
    end; cbn; eexists _, _; (split; [reflexivity|]); cbn;
    repeat split; eauto.
  exists msg. repeat split. discriminate.
Qed.

(** The whole loop: commands go out in the order of the walk, and the
    first one that fails is the last one sent. *)
Lemma save_loop_run c rowkind kvs s cl :
  r_cli s = Some cl → is_rowkind rowkind →
  ∃ out s' cmds,
    save_loop c rowkind kvs s = Done out s'
    ∧ calls s' = (calls s ++ (CmdOn cl <$> cmds))%list
    ∧ r_c s' = r_c s ∧ r_cli s' = r_cli s
    ∧ match out with
      | None => cmd_key <$> cmds = kvs.*1
      | Some e => ∃ pre key val post sent failed msg,
          kvs = (pre ++ (key, val) :: post)%list
          ∧ cmds = (sent ++ [failed])%list
          ∧ cmd_key <$> sent = pre.*1
          ∧ cmd_key failed = key
          ∧ redis_err (calls s ++ (CmdOn cl <$> sent))%list (CmdOn cl failed) = Some msg
          ∧ error_cause e = LibError msg
          ∧ (is_Del failed = false → error_key e = Some key)
      end.
Proof.
  intros Hcl Hrk. revert s Hcl.
  induction kvs as [|[key val] rest IH]; intros s Hcl.
  - exists None, s, []. cbn. by rewrite app_nil_r.
  - destruct (save_write_run c rowkind key val s cl Hcl Hrk)
      as (cmd & out & s1 & Hrun & Hkey & Hcalls & Hc & Hcli & Hout).
    cbn. unfold bind at 1. rewrite Hrun. destruct out as [e|].
    + destruct Hout as (msg & Hmsg & Hcause & Hnames).
      exists (Some e), s1, [cmd]. repeat split; try done.
      exists [], key, val, rest, [], cmd, msg. cbn.
      rewrite app_nil_r. repeat split; done.
    + destruct (IH s1) as (out & s2 & cmds & Hloop & Hcalls2 & Hc2 & Hcli2 & Hout2);
        [congruence|].
      exists out, s2, (cmd :: cmds). rewrite Hloop. repeat split; try congruence.
      { rewrite Hcalls2, Hcalls. cbn. by rewrite <- app_assoc. }
      destruct out as [e|].
      * destruct Hout2 as (pre & k & v & post & sent & failed & msg
                           & -> & -> & Hsent & Hk & Hmsg & Hcause & Hnames).
        exists ((key, val) :: pre), k, v, post, (cmd :: sent), failed, msg.
        cbn. rewrite Hkey, Hsent. repeat split; try done.
        rewrite Hcalls in Hmsg. by rewrite <- app_assoc in Hmsg.
      * cbn. by rewrite Hkey, Hout2.
Qed.

(** On a provisioned and connected sink [save] returns, and leaves the
    sink as it was. *)
Lemma save_returns data s c cl :
  r_c s = Some c → r_cli s = Some cl →
  ∃ out s', save data s = Done out s' ∧ r_c s' = Some c ∧ r_cli s' = Some cl.
Proof.
  intros Hc Hcl. unfold save, bind, get_c. rewrite Hc.
  unfold resolve. destruct (save_values c data) as [values|e]; [|by eexists _, _].
  destruct (save_rowkind c data) as [rowkind|e] eqn:Hrk; [|by eexists _, _].
  destruct (save_loop_run c rowkind (range values) s cl Hcl)
    as (out & s' & cmds & Hloop & _ & Hc' & Hcl' & _).
  { by eapply save_rowkind_valid. }
  exists out, s'. repeat split; congruence.
Qed.

(** One turn of the loop once more, now with the command itself: it is
    the one the table of the spec gives for the pair, as soon as the data
    type is one of the two the table knows. *)
Lemma save_write_exact c rowkind key val s cl :
  r_cli s = Some cl → is_rowkind rowkind →
  ∃ cmd out s',
    save_write c rowkind key val s = Done out s'
    ∧ cmd_key cmd = key
    ∧ calls s' = (calls s ++ [CmdOn cl cmd])%list
    ∧ r_cli s' = r_cli s
    ∧ (DataType c = "string" ∨ DataType c = "list" →
       spec_dispatch rowkind (DataType c) (Expiration c) key val cmd)
    ∧ match out with
      | None => redis_err (calls s) (CmdOn cl cmd) = None
      | Some e => ∃ msg,
          redis_err (calls s) (CmdOn cl cmd) = Some msg
          ∧ error_cause e = LibError msg
          ∧ (is_Del cmd = false → error_key e = Some key)
      end.
Proof.
  intros Hcl Hrk. unfold save_write.
  destruct Hrk as [-> | [-> | [-> | ->]]]; cbn;
    destruct (String.eqb_spec (DataType c) "list") as [Hl|Hl]; run; rewrite Hcl;
    match goal with
    | |- context [redis_err (calls s) (CmdOn cl ?cmd)] =>
        exists cmd; destruct (redis_err (calls s) (CmdOn cl cmd)) as [msg|] eqn:E
    end; cbn; eexists _, _; (split; [reflexivity|]); cbn;
    repeat split; eauto;
    try (intros [Hd|Hd]; try congruence; unfold spec_dispatch; rewrite Hd;
         unfold RowkindInsert, RowkindUpdate, RowkindUpsert, RowkindDelete;
         tauto);
    try (exists msg; repeat split; discriminate).
Qed.

(** The whole loop, with everything: which commands go out, that each is
    the one of the table, that every command before the last was accepted,
    and that [save] ends with an error exactly when the last one was
    refused. *)
Lemma save_loop_exact c rowkind kvs s cl :
  r_cli s = Some cl → is_rowkind rowkind →
  ∃ out s' cmds,
    save_loop c rowkind kvs s = Done out s'
    ∧ calls s' = (calls s ++ (CmdOn cl <$> cmds))%list
    ∧ (DataType c = "string" ∨ DataType c = "list" →
       Forall2 (λ cmd kv, spec_dispatch rowkind (DataType c) (Expiration c)
                            kv.1 kv.2 cmd)
               cmds (take (length cmds) kvs))
    ∧ match out with
      | None => cmd_key <$> cmds = kvs.*1 ∧ all_accepted (calls s) cl cmds
      | Some e => ∃ pre key val post sent failed msg,
          kvs = (pre ++ (key, val) :: post)%list
          ∧ cmds = (sent ++ [failed])%list
          ∧ cmd_key <$> sent = pre.*1
          ∧ all_accepted (calls s) cl sent
          ∧ cmd_key failed = key
          ∧ redis_err (calls s ++ (CmdOn cl <$> sent))%list (CmdOn cl failed) = Some msg
          ∧ error_cause e = LibError msg
          ∧ (is_Del failed = false → error_key e = Some key)
      end.
Proof.
  intros Hcl Hrk. revert s Hcl.
  induction kvs as [|[key val] rest IH]; intros s Hcl.
  - exists None, s, []. cbn. rewrite app_nil_r. repeat split; try done.
  - destruct (save_write_exact c rowkind key val s cl Hcl Hrk)
      as (cmd & out & s1 & Hrun & Hkey & Hcalls & Hcli & Htable & Hout).
    cbn [save_loop]. unfold bind at 1. rewrite Hrun. destruct out as [e|].
    + destruct Hout as (msg & Hmsg & Hcause & Hnames).
      exists (Some e), s1, [cmd]. split; [done|]. split; [done|]. split.
      { intros Hd. cbn. constructor; [by apply Htable|constructor]. }
      exists [], key, val, rest, [], cmd, msg. cbn.
      rewrite app_nil_r. repeat split; done.
    + destruct (IH s1) as (out & s2 & cmds & Hloop & Hcalls2 & Htable2 & Hout2);
        [congruence|].
      exists out, s2, (cmd :: cmds). rewrite Hloop. split; [done|]. split.
      { rewrite Hcalls2, Hcalls. cbn. by rewrite <- app_assoc. }
      split.
      { intros Hd. cbn. constructor; [by apply Htable|by apply Htable2]. }
      destruct out as [e|].
      * destruct Hout2 as (pre & k & v & post & sent & failed & msg
                           & -> & -> & Hsent & Hacc & Hk & Hmsg & Hcause & Hnames).
        exists ((key, val) :: pre), k, v, post, (cmd :: sent), failed, msg.
        cbn. rewrite Hkey, Hsent. repeat split; try done.
        -- by rewrite <- Hcalls.
        -- rewrite Hcalls in Hmsg. by rewrite <- app_assoc in Hmsg.
      * destruct Hout2 as [Hkeys Hacc]. cbn. rewrite Hkey, Hkeys.
        repeat split; try done. by rewrite <- Hcalls.
Qed.

End Facts.

Section Claims.
Context `{GoEnv}.

(** ** Writing the pairs of one tuple *)

(** C1, as amended. In multiple key mode, for a tuple that resolves, on a
    provisioned and connected sink: [save] sends one command per key in
    the order of the walk, up to and including the first command Redis
    answers with an error. Every command before that one was accepted; the
    refused one ends [save], whose result is its error, wrapping the error
    of the store and, for SET, LPUSH and LPOP, naming the key; no command
    is sent on any key after it. [save] returns nil only when Redis
    accepted a command for every key. *)
Theorem C1_save_stops_at_first_failure c data s cl values rowkind :
  r_c s = Some c → r_cli s = Some cl → KeyType c = "multiple" →
  resolve c data = Ok (values, rowkind) →
  ∃ out s' cmds,
    save data s = Done out s'
    ∧ calls s' = (calls s ++ (CmdOn cl <$> cmds))%list
    ∧ match out with
      | None =>
          cmd_key <$> cmds = (range values).*1
          ∧ all_accepted (calls s) cl cmds
      | Some e => ∃ pre key val post sent failed msg,
          range values = (pre ++ (key, val) :: post)%list
          ∧ cmds = (sent ++ [failed])%list
          ∧ cmd_key <$> sent = pre.*1
          ∧ all_accepted (calls s) cl sent
          ∧ cmd_key failed = key
          ∧ redis_err (calls s ++ (CmdOn cl <$> sent))%list (CmdOn cl failed) = Some msg
          ∧ error_cause e = LibError msg
          ∧ (is_Del failed = false → error_key e = Some key)
          ∧ (∀ k, k ∈ post.*1 → k ∉ cmd_key <$> cmds)
      end.
Proof.
  intros Hc Hcl _ Hres. unfold save, bind, get_c. rewrite Hc, Hres.
  assert (is_rowkind rowkind) as Hrk.
  { unfold resolve in Hres. destruct (save_values c data); [|done].
    destruct (save_rowkind c data) eqn:E; [|done].
    injection Hres as _ <-. by eapply save_rowkind_valid. }
  destruct (save_loop_exact c rowkind (range values) s cl Hcl Hrk)
    as (out & s' & cmds & Hloop & Hcalls & _ & Hout).
  exists out, s', cmds. repeat split; try done.
  destruct out as [e|]; [|done].
  destruct Hout as (pre & key & val & post & sent & failed & msg
                    & Hsplit & -> & Hsent & Hacc & Hk & Hmsg & Hcause & Hnames).
  exists pre, key, val, post, sent, failed, msg. repeat split; try done.
  intros k Hpost Hsentk.
  pose proof (range_NoDup values) as Hnd.
  rewrite Hsplit, fmap_app, fmap_cons in Hnd. cbn in Hnd.
  apply NoDup_app in Hnd as (_ & Hdisj & Hnd2).
  apply NoDup_cons in Hnd2 as [Hfresh _].
  rewrite fmap_app, Hsent in Hsentk. cbn in Hsentk. rewrite Hk in Hsentk.
  apply elem_of_app in Hsentk as [Hin|Hin].
  - apply (Hdisj k Hin). by apply elem_of_cons; right.
  - apply list_elem_of_singleton in Hin as ->. done.
Qed.

(** ** Resolving a tuple *)

(** C3, as amended. In multiple key mode, for a tuple whose row kind
    derivation succeeds, resolution yields one pair per field of the
    tuple, under the name of the field, holding the string conversion of
    its value; a value that does not convert leaves the empty string under
    its key. The first block of [save] has no error of its own in this
    mode, so a conversion never makes resolution fail. *)
Theorem C3_multiple_one_pair_per_field c data rowkind :
  KeyType c = "multiple" →
  save_rowkind c data = Ok rowkind →
  ∃ values,
    resolve c data = Ok (values, rowkind)
    ∧ dom values = dom data
    ∧ size values = size data
    ∧ (∀ k v, data !! k = Some v → values !! k = Some (cast_ToString v).1)
    ∧ (∀ k v e, data !! k = Some v → (cast_ToString v).2 = Some e →
         values !! k = Some "")
    ∧ (∀ data', ∃ values', save_values c data' = Ok values').
Proof.
  intros Hk Hrk. exists ((λ v, (cast_ToString v).1) <$> data).
  unfold resolve. rewrite (save_values_multiple c data Hk), Hrk.
  split; [done|]. split; [apply dom_fmap_L|]. split; [apply map_size_fmap|].
  split; [|split].
  - intros k v Hv. by rewrite lookup_fmap, Hv.
  - intros k v e Hv He. rewrite lookup_fmap, Hv. cbn.
    destruct v; cbn in He; try discriminate. done.
  - intros data'. eexists. by apply save_values_multiple.
Qed.

(** C10. In multiple key mode the empty tuple resolves to no pair at all,
    with row kind upsert whether or not a row kind field is configured,
    and [save] returns nil without a call on the client and without a log
    line: the state is the one it started from. *)
Theorem C10_empty_tuple_multiple c s :
  r_c s = Some c → KeyType c = "multiple" →
  resolve c ∅ = Ok (∅, RowkindUpsert)
  ∧ save ∅ s = Done None s.
Proof.
  intros Hc Hk.
  assert (resolve c ∅ = Ok (∅, RowkindUpsert)) as Hres.
  { unfold resolve. rewrite (save_values_multiple c ∅ Hk), fmap_empty.
    rewrite save_rowkind_absent; [done|]. right. apply lookup_empty. }
  split; [done|].
  unfold save, bind, get_c. rewrite Hc, Hres. by rewrite range_empty.
Qed.

(** C2, as amended. In single key mode, for a tuple whose JSON encoding
    and row kind derivation both succeed: with no key field configured,
    resolution yields exactly one pair, under the static key, holding the
    JSON text of the tuple; with a key field that the tuple holds,
    resolution yields exactly one pair, holding the JSON text under the
    string conversion of the value of that field, when this value
    converts, and fails with the key conversion error when it does not. *)
Theorem C2_single_one_pair c data js rowkind :
  KeyType c = "single" →
  json_Marshal data = inl js →
  save_rowkind c data = Ok rowkind →
  (Field c = "" → resolve c data = Ok ({[Key c := js]}, rowkind))
  ∧ (∀ keyval,
       Field c ≠ "" → data !! Field c = Some keyval →
       match cast_ToString keyval with
       | (key, None) => resolve c data = Ok ({[key := js]}, rowkind)
       | (_, Some _) => resolve c data = Fail (ErrKeyConversion keyval)
       end).
Proof.
  intros Hk Hjs Hrk. unfold resolve, save_values. rewrite Hk, Hjs, Hrk. cbn. split.
  - intros ->. cbn. by rewrite insert_empty.
  - intros keyval Hf Hin. rewrite (eqb_false _ _ Hf), Hin.
    destruct (cast_ToString keyval) as [key [e|]]; cbn; [done|].
    by rewrite insert_empty.
Qed.

(** C4, as amended. For a tuple whose key/value pairs are derived without
    error (in multiple key mode: any tuple): when the row kind field is
    configured and the tuple holds it, resolution yields the value of the
    field as row kind if that value is one of the strings insert, update,
    upsert and delete, and fails with an InvalidRowKindError if it is
    not; when the field is configured but not in the tuple, or not
    configured, the row kind is upsert. *)
Theorem C4_rowkind_of_tuple c data values :
  save_values c data = Ok values →
  (∀ v, RowkindField c ≠ "" → data !! RowkindField c = Some v →
     (∀ rowkind, v = Str rowkind → is_rowkind rowkind →
        resolve c data = Ok (values, rowkind))
     ∧ ((∀ rowkind, v = Str rowkind → ¬ is_rowkind rowkind) →
        ∃ e, resolve c data = Fail e ∧ InvalidRowKindError e))
  ∧ (RowkindField c = "" ∨ data !! RowkindField c = None →
     resolve c data = Ok (values, RowkindUpsert)).
Proof.
  intros Hvalues. unfold resolve. rewrite Hvalues. split.
  - intros v Hf Hv. destruct (save_rowkind_present c data v Hf Hv) as [Hgood Hbad].
    split.
    + intros rowkind Hstr Hrk. by rewrite (Hgood rowkind Hstr Hrk).
    + intros Hno. destruct (Hbad Hno) as (e & -> & He). by exists e.
  - intros Habsent. by rewrite (save_rowkind_absent c data Habsent).
Qed.

(** C5. For a tuple that resolves, on a provisioned and connected sink
    whose data type is string or list: the commands [save] sends are, pair
    by pair in the order of the walk, the operations the table gives for
    the resolved row kind and the data type (SET key val with the
    configured expiration or LPUSH key val for insert, update and upsert;
    DEL key or LPOP key for delete). Every pair is dispatched when [save]
    returns nil; otherwise the pairs up to and including the one whose
    operation Redis refused. *)
Theorem C5_save_dispatches_by_table c data s cl values rowkind :
  r_c s = Some c → r_cli s = Some cl →
  DataType c = "string" ∨ DataType c = "list" →
  resolve c data = Ok (values, rowkind) →
  ∃ out s' cmds,
    save data s = Done out s'
    ∧ calls s' = (calls s ++ (CmdOn cl <$> cmds))%list
    ∧ Forall2 (λ cmd kv, spec_dispatch rowkind (DataType c) (Expiration c)
                           kv.1 kv.2 cmd)
              cmds (take (length cmds) (range values))
    ∧ match out with
      | None => length cmds = length (range values)
      | Some e => ∃ sent failed msg,
          cmds = (sent ++ [failed])%list
          ∧ all_accepted (calls s) cl sent
          ∧ redis_err (calls s ++ (CmdOn cl <$> sent))%list (CmdOn cl failed) = Some msg
      end.
Proof.
  intros Hc Hcl Hd Hres. unfold save, bind, get_c. rewrite Hc, Hres.
  assert (is_rowkind rowkind) as Hrk.
  { unfold resolve in Hres. destruct (save_values c data); [|done].
    destruct (save_rowkind c data) eqn:E; [|done].
    injection Hres as _ <-. by eapply save_rowkind_valid. }
  destruct (save_loop_exact c rowkind (range values) s cl Hcl Hrk)
    as (out & s' & cmds & Hloop & Hcalls & Htable & Hout).
  exists out, s', cmds. split; [done|]. split; [done|]. split; [by apply Htable|].
  destruct out as [e|].
  - destruct Hout as (pre & key & val & post & sent & failed & msg
                      & _ & -> & _ & Hacc & _ & Hmsg & _).
    by exists sent, failed, msg.
  - destruct Hout as [Hkeys _].
    by rewrite <- (length_fmap cmd_key), Hkeys, length_fmap.
Qed.

(** C6, as amended. In single key mode with a key field configured, a
    tuple that lacks the field never reaches the client: resolution fails,
    no pair is produced, and [save] returns the error with the state
    untouched. When the JSON encoding of the tuple succeeds, that error is
    the MissingFieldError naming the field. *)
Theorem C6_missing_key_field c data s :
  r_c s = Some c → KeyType c = "single" → Field c ≠ "" →
  data !! Field c = None →
  (∃ e, resolve c data = Fail e ∧ save data s = Done (Some e) s)
  ∧ (∀ js, json_Marshal data = inl js →
       resolve c data = Fail (ErrFieldMissing (Field c) data)
       ∧ save data s = Done (Some (ErrFieldMissing (Field c) data)) s).
Proof.
  intros Hc Hk Hf Hnone.
  assert (∀ e, resolve c data = Fail e → save data s = Done (Some e) s) as Hsave.
  { intros e He. unfold save, bind, get_c. by rewrite Hc, He. }
  assert (∀ js, json_Marshal data = inl js →
                resolve c data = Fail (ErrFieldMissing (Field c) data)) as Hres.
  { intros js Hjs. unfold resolve, save_values.
    by rewrite Hk, Hjs, (eqb_false _ _ Hf), Hnone. }
  split.
  - destruct (json_Marshal data) as [js|msg] eqn:Hjs.
    + eexists. split; [by eapply Hres|]. apply Hsave. by eapply Hres.
    + assert (resolve c data = Fail (LibError msg)) as He.
      { unfold resolve, save_values. by rewrite Hk, Hjs. }
      eauto.
  - intros js Hjs. split; [by eapply Hres|]. apply Hsave. by eapply Hres.
Qed.

(** ** Batches *)

(** The callback of [CollectList] does not look at the index. *)
Lemma RangeOfTuples_index (g : MapAny → M bool) i j items s :
  RangeOfTuples (λ _ tuple, g tuple) i items s
  = RangeOfTuples (λ _ tuple, g tuple) j items s.
Proof.
  revert i j s. induction items as [|tuple rest IH]; intros i j s; [done|].
  cbn. unfold bind. destruct (g tuple s) as [[|] s1|]; [|done..].
  apply IH.
Qed.

Lemma CollectList_cons tuple rest s :
  CollectList (tuple :: rest) s
  = match save tuple s with
    | Done out s1 =>
        CollectList rest
          (match out with Some e => add_log (LError e) s1 | None => s1 end)
    | Panic => Panic
    end.
Proof.
  unfold CollectList. cbn. unfold bind at 1 2 3.
  destruct (save tuple s) as [[e|] s1|]; [| |done]; cbn; unfold bind at 2;
    by rewrite (RangeOfTuples_index _ 1 0).
Qed.

Lemma CollectList_returns c cl items s :
  r_c s = Some c → r_cli s = Some cl →
  ∃ s', CollectList items s = Done None s' ∧ r_c s' = Some c ∧ r_cli s' = Some cl.
Proof.
  revert s. induction items as [|tuple rest IH]; intros s Hc Hcl.
  - by exists s.
  - rewrite CollectList_cons.
    destruct (save_returns tuple s c cl Hc Hcl) as (out & s1 & -> & Hc1 & Hcl1).
    apply IH; by destruct out.
Qed.

(** C7. On a provisioned and connected sink, [CollectList] saves every
    tuple of the batch, one after the other, each from the state its
    predecessors left: whatever the tuples before [tuple] did, [tuple] is
    saved; if its [save] returns an error the error is logged; the tuples
    after it are then processed all the same; and [CollectList] itself
    returns nil. *)
Theorem C7_CollectList_goes_on c cl s pre tuple post :
  r_c s = Some c → r_cli s = Some cl →
  ∃ s1 out s2 s3,
    CollectList pre s = Done None s1
    ∧ save tuple s1 = Done out s2
    ∧ CollectList post
        (match out with Some e => add_log (LError e) s2 | None => s2 end)
      = Done None s3
    ∧ CollectList (pre ++ tuple :: post) s = Done None s3.
Proof.
  revert s. induction pre as [|first pre IH]; intros s Hc Hcl.
  - destruct (save_returns tuple s c cl Hc Hcl) as (out & s2 & Hsave & Hc2 & Hcl2).
    destruct (CollectList_returns c cl post
                (match out with Some e => add_log (LError e) s2 | None => s2 end))
      as (s3 & Hrest & _); [by destruct out..|].
    exists s, out, s2, s3. repeat split; try done.
    cbn. by rewrite CollectList_cons, Hsave.
  - destruct (save_returns first s c cl Hc Hcl) as (out0 & s0 & Hsave0 & Hc0 & Hcl0).
    destruct (IH (match out0 with Some e => add_log (LError e) s0 | None => s0 end))
      as (s1 & out & s2 & s3 & Hpre & Hsave & Hrest & Hall); [by destruct out0..|].
    exists s1, out, s2, s3. repeat split; try done.
    + by rewrite CollectList_cons, Hsave0.
    + cbn. by rewrite CollectList_cons, Hsave0.
Qed.

(** ** Validation and the health check *)

(** [Validate] either rejects the properties and leaves the sink alone, or
    stores the config decoded from them. It never panics. *)
Lemma Validate_cases props s :
  (∃ e, Validate props s = Done (Some e) s)
  ∨ (∃ c, cast_MapToStruct props default_config = inl c
          ∧ Validate props s = Done None (set_r_c c s)).
Proof.
  unfold Validate. destruct (cast_MapToStruct props default_config) as [c|msg].
  - repeat match goal with
           | |- context [if ?b then _ else _] => destruct b
           end; eauto.
  - left. by eexists.
Qed.

(** C8. For a property map that decodes to the config [c]: [Validate]
    rejects it with an error when the database index is 16 or -1, and
    accepts it, storing [c], when the index is 0 or 15 and the other
    invariants hold (key type single or multiple, data type string or
    list, and in single mode a key or a field). Whenever [Validate]
    returns an error, for whatever reason, the sink is exactly as it was
    before: no config is stored. *)
Theorem C8_Validate_db_range props s :
  (∀ c, cast_MapToStruct props default_config = inl c →
        Db c = 16 ∨ Db c = -1 →
        Validate props s = Done (Some ErrDbRange) s)
  ∧ (∀ c, cast_MapToStruct props default_config = inl c →
          Db c = 0 ∨ Db c = 15 →
          KeyType c = "single" ∨ KeyType c = "multiple" →
          DataType c = "string" ∨ DataType c = "list" →
          (KeyType c = "single" → Key c ≠ "" ∨ Field c ≠ "") →
          Validate props s = Done None (set_r_c c s))
  ∧ (∀ e s', Validate props s = Done (Some e) s' → s' = s).
Proof.
  split; [|split].
  - intros c Hdec Hdb. unfold Validate. rewrite Hdec. by destruct Hdb as [-> | ->].
  - intros c Hdec Hdb Hkt Hdt Hkey. unfold Validate. rewrite Hdec.
    replace ((Db c <? 0) || (Db c >? 15))%Z with false by (by destruct Hdb as [-> | ->]).
    replace (negb (DataType c =? "string") && negb (DataType c =? "list"))
      with false by (by destruct Hdt as [-> | ->]).
    destruct Hkt as [Hsingle | Hmultiple].
    + destruct (Hkey Hsingle) as [Hne | Hne]; apply eqb_false in Hne;
        rewrite Hsingle, Hne; cbn; [done|].
      by rewrite andb_false_r.
    + by rewrite Hmultiple.
  - intros e s' Hv. destruct (Validate_cases props s) as [[e' He'] | (c & _ & Hc)];
      congruence.
Qed.

(** C9, as amended. [Ping] validates the properties first. When validation
    fails, [Ping] returns its error, makes no client, and leaves the sink
    as it was. When validation succeeds, the validated config replaces the
    one stored in the sink; the client handle of the sink is left alone; a
    new client is made from the validated config, pinged, and closed,
    whether the ping failed or not; and [Ping] returns the error of the
    ping. *)
Theorem C9_Ping_effects props s :
  (∃ e, Validate props s = Done (Some e) s ∧ Ping props s = Done (Some e) s)
  ∨ (∃ c,
       let cl := length (filter (λ x, is_NewClient x = true) (calls s)) in
       Validate props s = Done None (set_r_c c s)
       ∧ Ping props s
         = Done (LibError <$> redis_err (calls s ++ [NewClient (options_of c)])%list
                                         (PingOn cl))
             (mkState (Some c) (r_cli s)
                (calls s ++ [NewClient (options_of c); PingOn cl; CloseOn cl])%list
                (logs s) (notices s))).
Proof.
  destruct (Validate_cases props s) as [[e He] | (c & _ & Hc)].
  - left. exists e. split; [done|]. unfold Ping, bind. by rewrite He.
  - right. exists c. split; [done|].
    unfold Ping, bind at 1. rewrite Hc. unfold redis_NewClient; run.
    unfold add_call; cbn. by rewrite <- !app_assoc.
Qed.

End Claims.

(** * The theorems at work, and the inputs on which a claim fails *)

(** ** C1 *)

(** [save] on a tuple with the fields a and b, in multiple key mode,
    against a Redis that cannot be reached: the first SET fails and is the
    only command sent. *)
Lemma C1_witness :
  ∃ e s' cmd,
    @save unreachable_env tuple_ab (ready cfg_multiple) = Done (Some e) s'
    ∧ calls s' = (calls (ready cfg_multiple) ++ [CmdOn 0 cmd])%list.
Proof.
  destruct (@C1_save_stops_at_first_failure unreachable_env cfg_multiple tuple_ab
              (ready cfg_multiple) 0%nat {[ "a" := "1"; "b" := "x" ]} "upsert"
              eq_refl eq_refl eq_refl)
    as (out & s' & cmds & Hsave & Hcalls & Hout); [vm_compute; reflexivity|].
  vm_compute in Hsave. injection Hsave as <- <-.
  eexists _, _, _. split; reflexivity.
Defined.

(** The claim fails here: the tuple has the field b, the SET on a is
    refused, and [save] ends without any command on b. *)
Lemma C1_counterexample :
  KeyType cfg_multiple = "multiple"
  ∧ tuple_ab !! "b" = Some (Str "x")
  ∧ ∃ s',
      @save unreachable_env tuple_ab (ready cfg_multiple)
      = Done (Some (ErrSet "a" "1" (LibError "connection refused"))) s'
      ∧ ∀ cl cmd, CmdOn cl cmd ∈ calls s' → cmd_key cmd ≠ "b".
Proof.
  split; [reflexivity|]. split; [reflexivity|].
  eexists. split; [vm_compute; reflexivity|].
  intros cl cmd Hin. cbn in Hin.
  rewrite !elem_of_cons, elem_of_nil in Hin.
  destruct Hin as [Hin | [Hin | [Hin | []]]]; try discriminate.
  injection Hin as -> ->. discriminate.
Qed.

(** The second testable property of the spec: the fields a = 1 and b = "x"
    give the pairs a, "1" and b, "x". *)
Example resolve_tuple_ab :
  @resolve healthy_env cfg_multiple tuple_ab
  = Ok ({[ "a" := "1"; "b" := "x" ]}, RowkindUpsert).
Proof. vm_compute. reflexivity. Qed.

(** ** C2 *)

(** The end-to-end scenario of the spec: key field id, tuple of Ann. *)
Lemma C2_witness :
  ∃ js, @resolve healthy_env cfg_single_id tuple_ann = Ok ({[ "u1" := js ]}, "upsert").
Proof.
  destruct (@C2_single_one_pair healthy_env cfg_single_id tuple_ann
              (json_text tuple_ann) "upsert" eq_refl eq_refl eq_refl)
    as [_ Hfield].
  eexists. apply (Hfield (Str "u1")); [discriminate|reflexivity].
Defined.

(** The claim fails twice. With a static key, no key field and a tuple
    that encodes to JSON there is no pair when the row kind, archive, is
    refused. With the key field id, which the tuple holds, there is no
    pair and no key when the value of the field, a slice, has no string
    conversion. *)
Lemma C2_counterexample :
  (KeyType cfg_single_op = "single" ∧ Field cfg_single_op = ""
   ∧ (∃ js, @json_Marshal healthy_env tuple_archive = inl js)
   ∧ @resolve healthy_env cfg_single_op tuple_archive
     = Fail (ErrInvalidRowkind "archive")
   ∧ @save healthy_env tuple_archive (ready cfg_single_op)
     = Done (Some (ErrInvalidRowkind "archive")) (ready cfg_single_op))
  ∧ (KeyType cfg_single_id = "single" ∧ Field cfg_single_id = "id"
     ∧ tuple_slice_id !! "id" = Some (Other "[]any")
     ∧ (∃ js, @json_Marshal tolerant_env tuple_slice_id = inl js)
     ∧ @resolve tolerant_env cfg_single_id tuple_slice_id
       = Fail (ErrKeyConversion (Other "[]any"))
     ∧ @save tolerant_env tuple_slice_id (ready cfg_single_id)
       = Done (Some (ErrKeyConversion (Other "[]any"))) (ready cfg_single_id)).
Proof.
  split.
  - repeat split; try reflexivity. eexists. vm_compute. reflexivity.
  - repeat split; try reflexivity. eexists. vm_compute. reflexivity.
Qed.

(** ** C3 *)

(** A tuple with a value that does not convert: the field c is written
    with the empty string, the field a with "1". *)
Lemma C3_witness :
  ∃ values,
    @resolve healthy_env cfg_multiple tuple_chan = Ok (values, "upsert")
    ∧ values !! "a" = Some "1" ∧ values !! "c" = Some "".
Proof.
  destruct (@C3_multiple_one_pair_per_field healthy_env cfg_multiple tuple_chan
              "upsert" eq_refl eq_refl)
    as (values & Hres & _ & _ & Hconv & Hempty & _).
  exists values. split; [exact Hres|]. split.
  - apply (Hconv "a" (Int 1)). reflexivity.
  - apply (Hempty "c" (Other "chan int") (ErrCannotConvert (Other "chan int")));
      reflexivity.
Defined.

(** The claim fails here: multiple key mode, a tuple with one field, and
    no pair for it: the row kind archive is refused. *)
Lemma C3_counterexample :
  KeyType cfg_multiple_op = "multiple"
  ∧ tuple_archive !! "op" = Some (Str "archive")
  ∧ @resolve healthy_env cfg_multiple_op tuple_archive
    = Fail (ErrInvalidRowkind "archive")
  ∧ @save healthy_env tuple_archive (ready cfg_multiple_op)
    = Done (Some (ErrInvalidRowkind "archive")) (ready cfg_multiple_op).
Proof. repeat split; vm_compute; reflexivity. Qed.

(** ** C4 *)

Lemma archive_not_rowkind : ¬ is_rowkind "archive".
Proof. intros [Hk | [Hk | [Hk | Hk]]]; discriminate. Qed.

(** A tuple that asks for delete, and one that asks for archive. *)
Lemma C4_witness :
  @resolve healthy_env cfg_single_op tuple_delete
  = Ok ({[ "k" := json_text tuple_delete ]}, "delete")
  ∧ ∃ e, @resolve healthy_env cfg_single_op tuple_archive = Fail e
         ∧ InvalidRowKindError e.
Proof.
  split.
  - destruct (@C4_rowkind_of_tuple healthy_env cfg_single_op tuple_delete
                {[ "k" := json_text tuple_delete ]} eq_refl) as [Hpresent _].
    destruct (Hpresent (Str "delete")) as [Hgood _]; [discriminate|reflexivity|].
    apply Hgood; [reflexivity|]. right; right; right; reflexivity.
  - destruct (@C4_rowkind_of_tuple healthy_env cfg_single_op tuple_archive
                {[ "k" := json_text tuple_archive ]} eq_refl) as [Hpresent _].
    destruct (Hpresent (Str "archive")) as [_ Hbad]; [discriminate|reflexivity|].
    apply Hbad. intros rowkind [= <-]. exact archive_not_rowkind.
Defined.

(** The claim fails here: the row kind field is configured and holds
    archive, but resolution fails on the missing key field, with an error
    that is not an InvalidRowKindError. *)
Lemma C4_counterexample :
  RowkindField cfg_single_id_op = "op"
  ∧ tuple_archive !! "op" = Some (Str "archive")
  ∧ ¬ is_rowkind "archive"
  ∧ @resolve healthy_env cfg_single_id_op tuple_archive
    = Fail (ErrFieldMissing "id" tuple_archive)
  ∧ ¬ InvalidRowKindError (ErrFieldMissing "id" tuple_archive).
Proof.
  repeat split; try reflexivity; [exact archive_not_rowkind|].
  intros [].
Qed.

(** ** C5 *)

(** The example of the spec: a tuple with op = delete, on a list, pops the
    front of the list and pushes nothing. *)
Lemma C5_witness :
  ∃ s',
    @save healthy_env tuple_delete (ready cfg_list_op) = Done None s'
    ∧ calls s' = (calls (ready cfg_list_op) ++ [CmdOn 0 (LPop "k")])%list.
Proof.
  destruct (@C5_save_dispatches_by_table healthy_env cfg_list_op tuple_delete
              (ready cfg_list_op) 0%nat {[ "k" := json_text tuple_delete ]}
              "delete" eq_refl eq_refl (or_intror eq_refl))
    as (out & s' & cmds & Hsave & Hcalls & Htable & Hout);
    [vm_compute; reflexivity|].
  assert (out = None) as ->.
  { vm_compute in Hsave. by injection Hsave as <- _. }
  exists s'. split; [exact Hsave|]. rewrite Hcalls.
  vm_compute (length (range _)) in Hout.
  destruct cmds as [|cmd [|cmd' cmds]]; try discriminate Hout.
  vm_compute (take _ _) in Htable.
  apply Forall2_cons_1 in Htable as [Hcmd _].
  destruct Hcmd as [[[Hk | [Hk | Hk]] _] | [_ [[Hd _] | [_ ->]]]];
    try discriminate; reflexivity.
Defined.

(** ** C6 *)

Lemma C6_witness :
  @save healthy_env tuple_ab (ready cfg_single_id)
  = Done (Some (ErrFieldMissing "id" tuple_ab)) (ready cfg_single_id).
Proof.
  destruct (@C6_missing_key_field healthy_env cfg_single_id tuple_ab
              (ready cfg_single_id) eq_refl eq_refl) as [_ Hjson];
    [discriminate|reflexivity|].
  destruct (Hjson (json_text tuple_ab) eq_refl) as [_ Hsave]. exact Hsave.
Defined.

(** The claim fails here: the key field id is configured and the tuple
    lacks it, but the tuple holds a channel and does not encode to JSON;
    [save] returns the error of the encoder, not a MissingFieldError. *)
Lemma C6_counterexample :
  KeyType cfg_single_id = "single" ∧ Field cfg_single_id = "id"
  ∧ tuple_chan !! "id" = None
  ∧ @save healthy_env tuple_chan (ready cfg_single_id)
    = Done (Some (LibError "json: unsupported type")) (ready cfg_single_id)
  ∧ ¬ MissingFieldError (LibError "json: unsupported type").
Proof.
  repeat split; try reflexivity. intros [].
Qed.

(** ** C7 *)

(** A batch of two tuples of which the first is refused: the refusal is
    logged, the second tuple is written, and the batch returns nil. *)
Lemma C7_witness :
  ∃ s3,
    @CollectList healthy_env [tuple_archive; tuple_delete] (ready cfg_single_op)
    = Done None s3
    ∧ LError (ErrInvalidRowkind "archive") ∈ logs s3
    ∧ CmdOn 0 (Del "k") ∈ calls s3.
Proof.
  destruct (@C7_CollectList_goes_on healthy_env cfg_single_op 0%nat
              (ready cfg_single_op) [tuple_archive] tuple_delete [] eq_refl eq_refl)
    as (s1 & out & s2 & s3 & _ & _ & _ & Hall).
  exists s3. split; [exact Hall|].
  vm_compute in Hall. injection Hall as <-. cbn.
  split; [apply list_elem_of_here|].
  do 2 apply list_elem_of_further. apply list_elem_of_here.
Defined.

(** ** C8 *)

Lemma C8_witness :
  @Validate healthy_env (props_db 16) fresh = Done (Some ErrDbRange) fresh
  ∧ @Validate healthy_env (props_db (-1)) fresh = Done (Some ErrDbRange) fresh
  ∧ (∃ c, @Validate healthy_env (props_db 0) fresh = Done None (set_r_c c fresh)
          ∧ Db c = 0)
  ∧ (∃ c, @Validate healthy_env (props_db 15) fresh = Done None (set_r_c c fresh)
          ∧ Db c = 15).
Proof.
  split; [|split; [|split]].
  - destruct (@C8_Validate_db_range healthy_env (props_db 16) fresh) as (Hrej & _ & _).
    eapply Hrej; [reflexivity|]. left; reflexivity.
  - destruct (@C8_Validate_db_range healthy_env (props_db (-1)) fresh) as (Hrej & _ & _).
    eapply Hrej; [reflexivity|]. right; reflexivity.
  - destruct (@C8_Validate_db_range healthy_env (props_db 0) fresh) as (_ & Hacc & _).
    eexists. split.
    + eapply Hacc; [reflexivity|left; reflexivity|left; reflexivity|left; reflexivity|].
      intros _. left. discriminate.
    + reflexivity.
  - destruct (@C8_Validate_db_range healthy_env (props_db 15) fresh) as (_ & Hacc & _).
    eexists. split.
    + eapply Hacc; [reflexivity|right; reflexivity|left; reflexivity|left; reflexivity|].
      intros _. left. discriminate.
    + reflexivity.
Defined.

(** ** C9 *)

(** The claim fails here: a sink provisioned in multiple key mode is
    pinged with other properties, which are valid; after the ping the sink
    holds the config of the ping, in single key mode, not its own. *)
Lemma C9_counterexample :
  ∃ c' s',
    @Ping healthy_env (props_db 15) (ready cfg_multiple) = Done None s'
    ∧ r_c (ready cfg_multiple) = Some cfg_multiple
    ∧ r_c s' = Some c'
    ∧ KeyType c' = "single"
    ∧ r_c s' ≠ r_c (ready cfg_multiple).
Proof.
  eexists _, _. split; [vm_compute; reflexivity|].
  repeat split. cbn. discriminate.
Qed.

(** ** C10 *)

Lemma C10_witness :
  @resolve healthy_env cfg_multiple_op ∅ = Ok (∅, RowkindUpsert)
  ∧ @save healthy_env ∅ (ready cfg_multiple_op) = Done None (ready cfg_multiple_op).
Proof.
  exact (@C10_empty_tuple_multiple healthy_env cfg_multiple_op
           (ready cfg_multiple_op) eq_refl eq_refl).
Defined.

(** * Further properties of the sink *)

Section More.
Context `{GoEnv}.

(** ** Validation *)

Lemma db_in_range (n : Z) : ((n <? 0) || (n >? 15))%Z = false ↔ (0 ≤ n ≤ 15)%Z.
Proof.
  rewrite orb_false_iff, Z.ltb_ge, Z.gtb_ltb, Z.ltb_ge. lia.
Qed.

Lemma valid_config_checks c :
  valid_config c ↔
  ((Db c <? 0) || (Db c >? 15))%Z = false
  ∧ (KeyType c =? "single") && (Key c =? "") && (Field c =? "") = false
  ∧ negb (KeyType c =? "single") && negb (KeyType c =? "multiple") = false
  ∧ negb (DataType c =? "string") && negb (DataType c =? "list") = false.
Proof.
  unfold valid_config. rewrite db_in_range.
  destruct (String.eqb_spec (KeyType c) "single") as [Hs|Hs];
    destruct (String.eqb_spec (KeyType c) "multiple") as [Hm|Hm];
    destruct (String.eqb_spec (Key c) "") as [Hk|Hk];
    destruct (String.eqb_spec (Field c) "") as [Hf|Hf];
    destruct (String.eqb_spec (DataType c) "string") as [Hd|Hd];
    destruct (String.eqb_spec (DataType c) "list") as [Hl|Hl]; cbn;
    split; intros (Hdb & H1 & H2 & H3); (split; [exact Hdb|]);
    try discriminate; try (repeat split; auto; fail);
    try (destruct (H1 Hs); done); try (destruct H2; done);
    try (destruct H3; done).
Qed.

Lemma Validate_accepts props s s' :
  Validate props s = Done None s'
  ↔ ∃ c, cast_MapToStruct props default_config = inl c
         ∧ valid_config c ∧ s' = set_r_c c s.
Proof.
  unfold Validate. split.
  - destruct (cast_MapToStruct props default_config) as [c|msg]; [|discriminate].
    destruct ((Db c <? 0) || (Db c >? 15))%Z eqn:E1; [discriminate|].
    destruct ((KeyType c =? "single") && (Key c =? "") && (Field c =? ""))
      eqn:E2; [discriminate|].
    destruct (negb (KeyType c =? "single") && negb (KeyType c =? "multiple"))
      eqn:E3; [discriminate|].
    destruct (negb (DataType c =? "string") && negb (DataType c =? "list"))
      eqn:E4; [discriminate|].
    intros [= <-]. exists c. split; [done|]. split; [|done].
    apply valid_config_checks. done.
  - intros (c & -> & Hv & ->).
    apply valid_config_checks in Hv as (-> & -> & -> & ->). done.
Qed.

(** X1. [Validate] returns nil exactly for the property maps that decode to
    a config within the invariants (database index from 0 to 15, key type
    single or multiple, data type string or list, a key or a field in
    single mode), and then the sink holds exactly that config. *)
Theorem X1_Validate_accepts_iff_valid props s s' :
  Validate props s = Done None s'
  ↔ ∃ c, cast_MapToStruct props default_config = inl c
         ∧ valid_config c ∧ s' = set_r_c c s.
Proof. apply Validate_accepts. Qed.

(** ** What a method leaves alone *)

Lemma wrote_only_refl s : wrote_only s s.
Proof.
  repeat split. exists []. split; [by rewrite app_nil_r|].
  intros x Hx. by apply elem_of_nil in Hx.
Qed.

Lemma wrote_only_trans s1 s2 s3 :
  wrote_only s1 s2 → wrote_only s2 s3 → wrote_only s1 s3.
Proof.
  intros (Hc & Hcl & Hn & new & Hcalls & Hnew)
         (Hc' & Hcl' & Hn' & new' & Hcalls' & Hnew').
  repeat split; try congruence.
  exists (new ++ new')%list. split.
  - by rewrite Hcalls', Hcalls, <- app_assoc.
  - intros x Hx. apply elem_of_app in Hx as [Hx|Hx]; [by apply Hnew|].
    rewrite <- Hcl. by apply Hnew'.
Qed.

Lemma wrote_only_log l s : wrote_only s (add_log l s).
Proof.
  repeat split. exists []. split; [by cbn; rewrite app_nil_r|].
  intros x Hx. by apply elem_of_nil in Hx.
Qed.

Lemma no_client_among_commands (new : list Call) :
  (∀ x, x ∈ new → ∃ cl cmd, x = CmdOn cl cmd) →
  filter (λ x, is_NewClient x = true) new = [].
Proof.
  induction new as [|x new IH]; intros Hnew; [done|].
  destruct (Hnew x) as (cl & cmd & ->); [apply list_elem_of_here|].
  rewrite filter_cons_False by done.
  apply IH. intros y Hy. apply Hnew. by apply list_elem_of_further.
Qed.

Lemma wrote_only_clients s s' : wrote_only s s' → clients s' = clients s.
Proof.
  intros (_ & _ & _ & new & Hcalls & Hnew). unfold clients.
  rewrite Hcalls, filter_app, length_app, (no_client_among_commands new);
    [by cbn; rewrite Nat.add_0_r|].
  intros x Hx. destruct (Hnew x Hx) as (cl & cmd & _ & ->). eauto.
Qed.

Lemma wrote_only_call s cl cmd :
  r_cli s = Some cl → wrote_only s (add_call (CmdOn cl cmd) s).
Proof.
  intros Hcl. repeat split. exists [CmdOn cl cmd]. split; [done|].
  intros x Hx. apply list_elem_of_singleton in Hx as ->. eauto.
Qed.

Lemma save_write_frame c rowkind key val s out s' :
  save_write c rowkind key val s = Done out s' → wrote_only s s'.
Proof.
  unfold save_write.
  destruct ((rowkind =? RowkindInsert) || (rowkind =? RowkindUpdate)
            || (rowkind =? RowkindUpsert));
    [|destruct (rowkind =? RowkindDelete)];
    try destruct (DataType c =? "list"); run.
  all: try (intros [= <- <-]; apply wrote_only_log).
  all: destruct (r_cli s) as [cl|] eqn:Hcl; [|discriminate].
  all: match goal with
       | |- context [redis_err ?l ?x] => destruct (redis_err l x)
       end; cbn; intros [= <- <-].
  all: repeat (eapply wrote_only_trans; [|apply wrote_only_log]).
  all: by apply wrote_only_call.
Qed.

Lemma save_loop_frame c rowkind kvs s out s' :
  save_loop c rowkind kvs s = Done out s' → wrote_only s s'.
Proof.
  revert s. induction kvs as [|[key val] rest IH]; intros s.
  - intros [= <- <-]. apply wrote_only_refl.
  - cbn. unfold bind at 1.
    destruct (save_write c rowkind key val s) as [[e|] s1|] eqn:Hw; [| |discriminate].
    + intros [= <- <-]. by eapply save_write_frame.
    + intros Hrest. eapply wrote_only_trans; [by eapply save_write_frame|by apply IH].
Qed.

Lemma save_frame data s out s' : save data s = Done out s' → wrote_only s s'.
Proof.
  unfold save, bind, get_c. destruct (r_c s) as [c|]; [|discriminate].
  destruct (resolve c data) as [[values rowkind]|e].
  - apply save_loop_frame.
  - intros [= <- <-]. apply wrote_only_refl.
Qed.

(** X6. Whatever [save] does, it does it with data commands on the client
    of the sink and with log lines: when it returns, the config and the
    client handle of the sink are the ones it started with, the status
    handler was not called, and every call it added is a data command on
    the sink's own client. It never makes, pings or closes a client. *)
Theorem X6_save_writes_only data s out s' :
  save data s = Done out s' → wrote_only s s'.
Proof. apply save_frame. Qed.

Lemma CollectList_frame items s out s' :
  CollectList items s = Done out s' → wrote_only s s'.
Proof.
  revert s. induction items as [|tuple rest IH]; intros s.
  - intros [= <- <-]. apply wrote_only_refl.
  - rewrite CollectList_cons.
    destruct (save tuple s) as [o s1|] eqn:Hsave; [|discriminate].
    intros Hrest. apply IH in Hrest. apply save_frame in Hsave.
    eapply wrote_only_trans; [exact Hsave|].
    destruct o; [|done].
    eapply wrote_only_trans; [apply wrote_only_log|done].
Qed.

(** ** Connect, Ping and Close, step by step *)

Lemma Connect_run s c :
  r_c s = Some c →
  Connect s
  = Done (LibError <$> redis_err (calls s ++ [NewClient (options_of c)])%list
                                  (PingOn (clients s)))
      (mkState (Some c) (Some (clients s))
         (calls s ++ [NewClient (options_of c); PingOn (clients s)])%list
         (logs s ++ [LDebug "Opening redis sink"])%list
         (notices s
          ++ [match redis_err (calls s ++ [NewClient (options_of c)])%list
                              (PingOn (clients s)) with
              | Some msg => (false, msg)
              | None => (true, "")
              end])%list).
Proof.
  intros Hc. unfold Connect, redis_NewClient, notify; run. rewrite Hc. cbn.
  unfold clients.
  destruct (redis_err _ _); cbn; unfold add_notice, add_call; cbn;
    by rewrite <- !app_assoc, Hc.
Qed.

Lemma Ping_cases props s :
  (∃ e, Ping props s = Done (Some e) s)
  ∨ (∃ c, valid_config c
          ∧ Ping props s
            = Done (LibError <$> redis_err (calls s ++ [NewClient (options_of c)])%list
                                            (PingOn (clients s)))
                (mkState (Some c) (r_cli s)
                   (calls s ++ [NewClient (options_of c); PingOn (clients s);
                                CloseOn (clients s)])%list
                   (logs s) (notices s))).
Proof.
  destruct (Validate props s) as [[e|] s1|] eqn:Hv.
  - left. exists e.
    destruct (Validate_cases props s) as [[e' He'] | (c & _ & Hc)]; [|congruence].
    unfold Ping, bind. rewrite He'. rewrite Hv in He'. by injection He' as -> ->.
  - right. pose proof Hv as Hacc. apply Validate_accepts in Hacc as (c & _ & Hvalid & ->).
    exists c. split; [done|].
    unfold Ping, bind at 1. rewrite Hv. unfold redis_NewClient; run.
    unfold add_call, clients; cbn. by rewrite <- !app_assoc.
  - destruct (Validate_cases props s) as [[e' He'] | (c & _ & Hc)]; congruence.
Qed.

Lemma Connect_unprovisioned s : r_c s = None → Connect s = Panic.
Proof. intros Hc. unfold Connect; run. by rewrite Hc. Qed.

Lemma Close_run s cl :
  r_cli s = Some cl →
  Close s
  = Done (LibError <$> redis_err (calls s) (CloseOn cl))
      (mkState (r_c s) (Some cl) (calls s ++ [CloseOn cl])%list
         (logs s ++ [LInfof "Closing redis sink"])%list (notices s)).
Proof.
  intros Hcl. unfold Close; run. rewrite Hcl. cbn.
  unfold add_call, add_log; cbn. by rewrite Hcl.
Qed.

Lemma Close_unconnected s : r_cli s = None → Close s = Panic.
Proof. intros Hcl. unfold Close; run. by rewrite Hcl. Qed.

Lemma clients_app s l :
  length (filter (λ x, is_NewClient x = true) (calls s ++ l)%list)
  = (clients s + length (filter (λ x, is_NewClient x = true) l))%nat.
Proof. unfold clients. by rewrite filter_app, length_app. Qed.

(** ** The states a sink goes through *)

Lemma reachable_inv s :
  reachable s →
  (∀ c, r_c s = Some c → valid_config c)
  ∧ (∀ cl, r_cli s = Some cl → is_Some (r_c s) ∧ (cl < clients s)%nat).
Proof.
  induction 1 as [w|s m out s' Hreach [IHc IHcl] Hstep]; [by split|].
  destruct m as [props| |props|item|items|]; cbn [invoke] in Hstep.
  - unfold Provision in Hstep. destruct out as [e|].
    + destruct (Validate_cases props s) as [[e' He'] | (c & _ & Hc)]; [|congruence].
      rewrite Hstep in He'. by injection He' as _ ->.
    + apply Validate_accepts in Hstep as (c & _ & Hvalid & ->). split.
      * by intros c' [= <-].
      * intros cl Hcl. split; [by eexists|]. by apply IHcl.
  - destruct (r_c s) as [c|] eqn:Hc; [|by rewrite Connect_unprovisioned in Hstep].
    rewrite (Connect_run s c Hc) in Hstep. injection Hstep as _ <-. split.
    + intros c' [= <-]. by apply IHc.
    + intros cl [= <-]. split; [by eexists|].
      unfold clients at 2. cbn [calls]. rewrite clients_app. vm_compute (length _). lia.
  - destruct (Ping_cases props s) as [[e He] | (c & Hvalid & Hc)].
    + rewrite Hstep in He. by injection He as _ ->.
    + rewrite Hstep in Hc. injection Hc as _ ->. split.
      * by intros c' [= <-].
      * intros cl Hcl. split; [by eexists|].
        unfold clients at 1. cbn [calls]. rewrite clients_app.
        vm_compute (length _). destruct (IHcl cl Hcl) as [_ Hlt]. lia.
  - unfold Collect in Hstep. apply save_frame in Hstep.
    pose proof (wrote_only_clients _ _ Hstep) as Hn.
    destruct Hstep as (Hc & Hcl & _). rewrite Hc, Hcl, Hn. by split.
  - apply CollectList_frame in Hstep.
    pose proof (wrote_only_clients _ _ Hstep) as Hn.
    destruct Hstep as (Hc & Hcl & _). rewrite Hc, Hcl, Hn. by split.
  - destruct (r_cli s) as [cl|] eqn:Hcl; [|by rewrite Close_unconnected in Hstep].
    rewrite (Close_run s cl Hcl) in Hstep. injection Hstep as _ <-. split.
    + exact IHc.
    + intros cl' [= <-]. destruct (IHcl cl eq_refl) as [Hsome Hlt].
      split; [done|]. unfold clients at 1. cbn [calls]. rewrite clients_app. vm_compute (length _). lia.
Qed.

(** X2. In every state a sink can reach from [GetSink()] through its
    methods, a config held by the sink is within the invariants of
    [Validate], a sink that holds a client also holds a config, and the
    client it holds is one that [redis.NewClient] has made. *)
Theorem X2_reachable_invariants s :
  reachable s →
  (∀ c, r_c s = Some c → valid_config c)
  ∧ (∀ cl, r_cli s = Some cl → is_Some (r_c s) ∧ (cl < clients s)%nat).
Proof. apply reachable_inv. Qed.

(** X3. Once [Connect] has returned on a sink, with or without an error,
    no method of the sink panics any more: from every reachable state in
    which the sink holds a client, every method returns, and the sink
    still holds a client afterwards. *)
Theorem X3_connected_sink_never_panics s m :
  reachable s → is_Some (r_cli s) →
  ∃ out s', invoke m s = Done out s' ∧ is_Some (r_cli s').
Proof.
  intros Hreach [cl Hcl].
  destruct (reachable_inv s Hreach) as [_ Hinv].
  destruct (Hinv cl Hcl) as [[c Hc] _].
  destruct m as [props| |props|item|items|]; cbn [invoke].
  - unfold Provision.
    destruct (Validate_cases props s) as [[e ->] | (c' & _ & ->)];
      eexists _, _; (split; [reflexivity|]); by exists cl.
  - rewrite (Connect_run s c Hc). by eexists _, _.
  - destruct (Ping_cases props s) as [[e ->] | (c' & _ & ->)];
      eexists _, _; (split; [reflexivity|]); by exists cl.
  - destruct (save_returns item s c cl Hc Hcl) as (out & s' & Hs & _ & Hcl').
    exists out, s'. split; [done|]. by exists cl.
  - destruct (CollectList_returns c cl items s Hc Hcl) as (s' & Hs & _ & Hcl').
    exists None, s'. split; [done|]. by exists cl.
  - rewrite (Close_run s cl Hcl). by eexists _, _.
Qed.


(** X5. [Ping] leaves the client of the sink alone: in every reachable
    state, the calls a [Ping] adds are on a client of its own, so it
    neither pings nor closes the client the sink holds, sends no data
    command on it, and the sink holds the same client afterwards. *)
Theorem X5_Ping_spares_the_client s props out s' cl :
  reachable s → r_cli s = Some cl → Ping props s = Done out s' →
  r_cli s' = Some cl
  ∧ ∃ new, calls s' = (calls s ++ new)%list
           ∧ (PingOn cl ∉ new) ∧ (CloseOn cl ∉ new)
           ∧ (∀ cmd, CmdOn cl cmd ∉ new).
Proof.
  intros Hreach Hcl Hping.
  destruct (reachable_inv s Hreach) as [_ Hinv].
  destruct (Hinv cl Hcl) as [_ Hlt].
  destruct (Ping_cases props s) as [[e He] | (c & _ & Hc)].
  - rewrite Hping in He. injection He as _ ->. split; [done|].
    exists []. rewrite app_nil_r. split; [done|].
    split; [apply not_elem_of_nil|].
    split; [apply not_elem_of_nil|]. intros cmd. apply not_elem_of_nil.
  - rewrite Hping in Hc. injection Hc as _ ->. split; [done|].
    eexists. split; [reflexivity|].
    assert (∀ x, x ∈ [NewClient (options_of c); PingOn (clients s);
                       CloseOn (clients s)] →
                 x = PingOn cl ∨ x = CloseOn cl ∨ (∃ cmd, x = CmdOn cl cmd) →
                 False) as Hnot.
    { intros x Hin Hx. rewrite !elem_of_cons, elem_of_nil in Hin.
      destruct Hin as [-> | [-> | [-> | []]]];
        destruct Hx as [Hx | [Hx | [cmd Hx]]]; try discriminate;
        injection Hx as Hx; lia. }
    split; [intros Hin; eapply Hnot; eauto|].
    split; [intros Hin; eapply Hnot; eauto|].
    intros cmd Hin. eapply Hnot; eauto.
Qed.

(** ** More on [save] *)

Lemma range_singleton {V} k (v : V) : range ({[k := v]} : gmap string V) = [(k, v)].
Proof.
  apply Permutation_singleton_r. rewrite (range_perm V _).
  by rewrite map_to_list_singleton.
Qed.

Lemma resolve_rowkind_valid c data values rowkind :
  resolve c data = Ok (values, rowkind) → is_rowkind rowkind.
Proof.
  unfold resolve. destruct (save_values c data); [|done].
  destruct (save_rowkind c data) eqn:E; [|done].
  intros [= _ <-]. by eapply save_rowkind_valid.
Qed.

(** X7. A tuple that resolves to a single pair, as every tuple does in
    single key mode, costs exactly one command: on a provisioned and
    connected sink [save] sends one command, on the key of the pair, and
    returns nil exactly when Redis answers that command without error. *)
Theorem X7_one_pair_one_command c data s cl key val rowkind :
  r_c s = Some c → r_cli s = Some cl →
  resolve c data = Ok ({[key := val]}, rowkind) →
  ∃ cmd out s',
    save data s = Done out s'
    ∧ calls s' = (calls s ++ [CmdOn cl cmd])%list
    ∧ cmd_key cmd = key
    ∧ (out = None ↔ redis_err (calls s) (CmdOn cl cmd) = None).
Proof.
  intros Hc Hcl Hres. unfold save, bind, get_c. rewrite Hc, Hres, range_singleton.
  destruct (save_write_run c rowkind key val s cl Hcl
              (resolve_rowkind_valid _ _ _ _ Hres))
    as (cmd & out & s1 & Hrun & Hkey & Hcalls & _ & _ & Hout).
  cbn. unfold bind. rewrite Hrun. exists cmd, out, s1.
  destruct out as [e|]; cbn; (split; [reflexivity|]); repeat split; try done.
  destruct Hout as (msg & Hmsg & _). intros Hnone. congruence.
Qed.

(** X8. In a key mode other than multiple, two errors come before the row
    kind is even looked at, and leave the state untouched: a tuple that
    [json.Marshal] refuses makes [save] return the error of the encoder
    as it is, and a key field whose value has no string conversion makes
    it return the key conversion error. *)
Theorem X8_single_mode_early_errors c data s :
  r_c s = Some c → KeyType c ≠ "multiple" →
  (∀ msg, json_Marshal data = inr msg →
          save data s = Done (Some (LibError msg)) s)
  ∧ (∀ js keyval e,
       json_Marshal data = inl js → Field c ≠ "" →
       data !! Field c = Some keyval → (cast_ToString keyval).2 = Some e →
       save data s = Done (Some (ErrKeyConversion keyval)) s).
Proof.
  intros Hc Hk. apply eqb_false in Hk. split.
  - intros msg Hjs. unfold save, bind, get_c, resolve, save_values.
    by rewrite Hc, Hk, Hjs.
  - intros js keyval e Hjs Hf Hin Hconv.
    unfold save, bind, get_c, resolve, save_values.
    rewrite Hc, Hk, Hjs, (eqb_false _ _ Hf), Hin.
    destruct (cast_ToString keyval) as [key [e'|]]; [done|discriminate].
Qed.

(** X9. In multiple key mode the row kind field is a field like any other:
    when the tuple carries a valid row kind under it, the field is itself
    among the pairs that are written, with the row kind as its value. *)
Theorem X9_rowkind_field_is_written c data rowkind :
  KeyType c = "multiple" → RowkindField c ≠ "" →
  data !! RowkindField c = Some (Str rowkind) → is_rowkind rowkind →
  ∃ values,
    resolve c data = Ok (values, rowkind)
    ∧ values !! RowkindField c = Some rowkind.
Proof.
  intros Hk Hf Hin Hrk. exists ((λ v, (cast_ToString v).1) <$> data).
  unfold resolve. rewrite (save_values_multiple c data Hk).
  destruct (save_rowkind_present c data (Str rowkind) Hf Hin) as [Hgood _].
  rewrite (Hgood rowkind eq_refl Hrk). split; [done|].
  by rewrite lookup_fmap, Hin.
Qed.

Lemma save_write_log c rowkind key val s cl s' :
  r_cli s = Some cl → is_rowkind rowkind →
  save_write c rowkind key val s = Done None s' →
  ∃ what, logs s' = (logs s ++ [LDebugf what key val])%list.
Proof.
  intros Hcl Hrk. unfold save_write.
  destruct Hrk as [-> | [-> | [-> | ->]]]; cbn;
    destruct (DataType c =? "list"); run; rewrite Hcl;
    match goal with
    | |- context [redis_err ?l ?x] => destruct (redis_err l x)
    end; cbn; intros [= <-]; by eexists.
Qed.

Lemma save_loop_log c rowkind kvs s cl s' :
  r_cli s = Some cl → is_rowkind rowkind →
  save_loop c rowkind kvs s = Done None s' →
  ∃ whats,
    length whats = length kvs
    ∧ logs s' = (logs s ++ zip_with (λ what kv, LDebugf what kv.1 kv.2) whats kvs)%list.
Proof.
  intros Hcl Hrk. revert s Hcl.
  induction kvs as [|[key val] rest IH]; intros s Hcl.
  - intros [= <-]. exists []. by rewrite app_nil_r.
  - cbn. unfold bind at 1.
    destruct (save_write c rowkind key val s) as [[e|] s1|] eqn:Hw; [done| |done].
    intros Hrest.
    destruct (save_write_log _ _ _ _ _ _ _ Hcl Hrk Hw) as [what Hlog].
    apply save_write_frame in Hw as (_ & Hcl1 & _).
    destruct (IH s1) as (whats & Hlen & Hlogs); [congruence|done|].
    exists (what :: whats). split; [by cbn; rewrite Hlen|].
    rewrite Hlogs, Hlog. cbn. by rewrite <- app_assoc.
Qed.

(** X10. When [save] returns nil on a provisioned and connected sink, it
    has logged one debug line per pair it wrote, in the order of the walk,
    each with the key and the value of its pair, and nothing else. *)
Theorem X10_save_logs_each_write c data s cl values rowkind s' :
  r_c s = Some c → r_cli s = Some cl →
  resolve c data = Ok (values, rowkind) →
  save data s = Done None s' →
  ∃ whats,
    length whats = length (range values)
    ∧ logs s'
      = (logs s ++ zip_with (λ what kv, LDebugf what kv.1 kv.2) whats (range values))%list.
Proof.
  intros Hc Hcl Hres. unfold save, bind, get_c. rewrite Hc, Hres.
  apply (save_loop_log _ _ _ _ cl); [done|]. by eapply resolve_rowkind_valid.
Qed.

Lemma save_write_unconnected c rowkind key val s :
  r_cli s = None → is_rowkind rowkind → save_write c rowkind key val s = Panic.
Proof.
  intros Hcl Hrk. unfold save_write.
  destruct Hrk as [-> | [-> | [-> | ->]]]; cbn;
    destruct (DataType c =? "list"); run; by rewrite Hcl.
Qed.

(** X11. On a sink that holds a config but was never connected, [save]
    still returns the errors of resolution, and returns nil for a tuple
    that resolves to no pair; a tuple that resolves to at least one pair
    runs into the nil client and panics. *)
Theorem X11_save_without_client c data s :
  r_c s = Some c → r_cli s = None →
  (∀ e, resolve c data = Fail e → save data s = Done (Some e) s)
  ∧ (∀ values rowkind, resolve c data = Ok (values, rowkind) →
       (values = ∅ → save data s = Done None s)
       ∧ (values ≠ ∅ → save data s = Panic)).
Proof.
  intros Hc Hcl. split.
  - intros e He. unfold save, bind, get_c. by rewrite Hc, He.
  - intros values rowkind Hres. unfold save, bind, get_c. rewrite Hc, Hres. split.
    + intros ->. by rewrite range_empty.
    + intros Hne. destruct (range values) as [|[key val] rest] eqn:Hrange.
      * exfalso. apply Hne. apply map_to_list_empty_iff.
        apply Permutation_nil_r. by rewrite <- (range_perm _ values), Hrange.
      * cbn. unfold bind.
        by rewrite (save_write_unconnected c rowkind key val s Hcl
                      (resolve_rowkind_valid _ _ _ _ Hres)).
Qed.

(** ** More on batches *)

(** X12. A batch is the sum of its parts: collecting [xs ++ ys] is
    collecting [xs] and then [ys] from the state that leaves, and
    collecting a batch of one tuple is [Collect] on that tuple, with the
    error logged instead of returned. *)
Theorem X12_CollectList_splits xs ys item s :
  CollectList (xs ++ ys) s
  = match CollectList xs s with
    | Done _ s1 => CollectList ys s1
    | Panic => Panic
    end
  ∧ CollectList [item] s
    = match Collect item s with
      | Done (Some e) s1 => Done None (add_log (LError e) s1)
      | Done None s1 => Done None s1
      | Panic => Panic
      end.
Proof.
  split.
  - revert s. induction xs as [|x xs IH]; intros s; [done|].
    cbn [app]. rewrite !CollectList_cons.
    destruct (save x s) as [out s1|]; [|done]. apply IH.
  - rewrite CollectList_cons. unfold Collect.
    by destruct (save item s) as [[e|] s1|].
Qed.

(** X13. Until [Provision] or [Ping] has stored a config, nothing else
    can be called on a sink: in every reachable state without config, the
    sink has no client either, and [Connect], [Close], [Collect] of any
    tuple and [CollectList] of any batch that is not empty panic on a nil
    pointer. *)
Theorem X13_methods_need_a_config s :
  reachable s → r_c s = None →
  r_cli s = None
  ∧ Connect s = Panic
  ∧ Close s = Panic
  ∧ (∀ item, Collect item s = Panic)
  ∧ (∀ item rest, CollectList (item :: rest) s = Panic).
Proof.
  intros Hreach Hc.
  assert (r_cli s = None) as Hcl.
  { destruct (r_cli s) as [cl|] eqn:Hcl; [|done].
    destruct (reachable_inv s Hreach) as [_ Hinv].
    destruct (Hinv cl Hcl) as [[c Hc'] _]. congruence. }
  assert (∀ item, save item s = Panic) as Hsave.
  { intros item. unfold save, bind, get_c. by rewrite Hc. }
  split; [done|]. split; [by apply Connect_unprovisioned|].
  split; [by apply Close_unconnected|]. split; [exact Hsave|].
  intros item rest. by rewrite CollectList_cons, Hsave.
Qed.

End More.

(** * The further properties at work *)

Lemma connected_sink_reachable : @reachable healthy_env connected_sink.
Proof.
  eapply (@reach_step healthy_env _ DoConnect None).
  - eapply (@reach_step healthy_env (GetSink fresh) (DoProvision (props_db 0)) None).
    + apply reach_new.
    + vm_compute. reflexivity.
  - vm_compute. reflexivity.
Qed.

Lemma new_sink_reachable : @reachable healthy_env (GetSink fresh).
Proof. apply reach_new. Qed.

Lemma X1_witness :
  ∃ c, sample_MapToStruct (props_db 15) default_config = inl c
       ∧ valid_config c ∧ Db c = 15.
Proof.
  destruct (proj1 (@X1_Validate_accepts_iff_valid healthy_env (props_db 15) fresh
                     (set_r_c _ fresh)) eq_refl) as (c & Hdec & Hvalid & Hs).
  exists c. repeat split; try apply Hvalid; [exact Hdec|].
  vm_compute in Hdec. by injection Hdec as <-.
Defined.

Lemma X2_witness :
  ∃ c, r_c connected_sink = Some c ∧ valid_config c
       ∧ r_cli connected_sink = Some 0%nat ∧ (0 < clients connected_sink)%nat.
Proof.
  destruct (@X2_reachable_invariants healthy_env connected_sink
              connected_sink_reachable) as [Hvalid Hclient].
  eexists. split; [reflexivity|]. split; [by apply Hvalid|].
  split; [reflexivity|]. by apply (Hclient 0%nat).
Defined.

Lemma X3_witness :
  ∃ out s', @Collect healthy_env tuple_ab connected_sink = Done out s'
            ∧ is_Some (r_cli s').
Proof.
  apply (@X3_connected_sink_never_panics healthy_env connected_sink
           (DoCollect tuple_ab) connected_sink_reachable).
  by exists 0%nat.
Defined.


Lemma X5_witness :
  ∃ s', @Ping healthy_env (props_db 15) connected_sink = Done None s'
        ∧ r_cli s' = Some 0%nat.
Proof.
  eexists. split; [vm_compute; reflexivity|].
  refine (proj1 (@X5_Ping_spares_the_client healthy_env connected_sink
                   (props_db 15) None _ 0%nat connected_sink_reachable eq_refl _)).
  vm_compute. reflexivity.
Defined.

Lemma X6_witness :
  ∃ out s', @save unreachable_env tuple_ab (ready cfg_multiple) = Done out s'
            ∧ wrote_only (ready cfg_multiple) s'.
Proof.
  eexists _, _. split; [vm_compute; reflexivity|].
  eapply (@X6_save_writes_only unreachable_env tuple_ab). vm_compute. reflexivity.
Defined.

Lemma X7_witness :
  ∃ cmd s',
    @save healthy_env tuple_ann (ready cfg_single_id) = Done None s'
    ∧ calls s' = (calls (ready cfg_single_id) ++ [CmdOn 0 cmd])%list
    ∧ cmd_key cmd = "u1".
Proof.
  destruct (@X7_one_pair_one_command healthy_env cfg_single_id tuple_ann
              (ready cfg_single_id) 0%nat "u1" (json_text tuple_ann) "upsert"
              eq_refl eq_refl)
    as (cmd & out & s' & Hrun & Hcalls & Hkey & Hout); [vm_compute; reflexivity|].
  assert (out = None) as -> by (apply Hout; reflexivity).
  exists cmd, s'. split; [exact Hrun|]. split; [exact Hcalls|exact Hkey].
Defined.

Lemma X8_witness :
  @save healthy_env tuple_chan (ready cfg_single_id)
  = Done (Some (LibError "json: unsupported type")) (ready cfg_single_id)
  ∧ @save tolerant_env tuple_slice_id (ready cfg_single_id_op)
    = Done (Some (ErrKeyConversion (Other "[]any"))) (ready cfg_single_id_op).
Proof.
  split.
  - destruct (@X8_single_mode_early_errors healthy_env cfg_single_id tuple_chan
                (ready cfg_single_id) eq_refl) as [Hjson _]; [discriminate|].
    by apply Hjson.
  - destruct (@X8_single_mode_early_errors tolerant_env cfg_single_id_op
                tuple_slice_id (ready cfg_single_id_op) eq_refl) as [_ Hkey];
      [discriminate|].
    eapply Hkey; [reflexivity|discriminate|reflexivity|reflexivity].
Defined.

Lemma X9_witness :
  ∃ values,
    @resolve healthy_env cfg_multiple_op tuple_delete = Ok (values, "delete")
    ∧ values !! "op" = Some "delete".
Proof.
  apply (@X9_rowkind_field_is_written healthy_env cfg_multiple_op tuple_delete
           "delete" eq_refl); [discriminate|reflexivity|].
  right; right; right; reflexivity.
Defined.

Lemma X10_witness :
  ∃ s' whats,
    @save healthy_env tuple_ab (ready cfg_multiple) = Done None s'
    ∧ length whats = 2%nat
    ∧ logs s' = [LDebugf (whats !!! 0%nat) "a" "1"; LDebugf (whats !!! 1%nat) "b" "x"].
Proof.
  assert (∃ s', @save healthy_env tuple_ab (ready cfg_multiple) = Done None s')
    as [s' Hsave] by (eexists; vm_compute; reflexivity).
  destruct (@X10_save_logs_each_write healthy_env cfg_multiple tuple_ab
              (ready cfg_multiple) 0%nat {[ "a" := "1"; "b" := "x" ]} "upsert"
              s' eq_refl eq_refl)
    as (whats & Hlen & Hlogs); [vm_compute; reflexivity|exact Hsave|].
  vm_compute in Hlen. vm_compute (range _) in Hlogs.
  exists s', whats. split; [exact Hsave|]. split; [exact Hlen|].
  rewrite Hlogs. destruct whats as [|w1 [|w2 [|w3 whats]]]; try discriminate.
  reflexivity.
Defined.

Lemma X11_witness :
  @save healthy_env tuple_ab (provisioned cfg_multiple) = Panic
  ∧ @save healthy_env ∅ (provisioned cfg_multiple)
    = Done None (provisioned cfg_multiple)
  ∧ @save healthy_env tuple_archive (provisioned cfg_multiple_op)
    = Done (Some (ErrInvalidRowkind "archive")) (provisioned cfg_multiple_op).
Proof.
  split; [|split].
  - destruct (@X11_save_without_client healthy_env cfg_multiple tuple_ab
                (provisioned cfg_multiple) eq_refl eq_refl) as [_ Hok].
    destruct (Hok {[ "a" := "1"; "b" := "x" ]} "upsert") as [_ Hpanic];
      [vm_compute; reflexivity|].
    apply Hpanic. intros Hempty.
    apply (f_equal (λ m : gmap string string, m !! "a")) in Hempty. discriminate.
  - destruct (@X11_save_without_client healthy_env cfg_multiple ∅
                (provisioned cfg_multiple) eq_refl eq_refl) as [_ Hok].
    destruct (Hok ∅ "upsert") as [Hnil _]; [vm_compute; reflexivity|].
    by apply Hnil.
  - destruct (@X11_save_without_client healthy_env cfg_multiple_op tuple_archive
                (provisioned cfg_multiple_op) eq_refl eq_refl) as [Herr _].
    by apply Herr.
Defined.

Lemma X13_witness :
  @Connect healthy_env (GetSink fresh) = Panic
  ∧ @Collect healthy_env tuple_ab (GetSink fresh) = Panic.
Proof.
  destruct (@X13_methods_need_a_config healthy_env (GetSink fresh)
              new_sink_reachable eq_refl)
    as (_ & Hconnect & _ & Hcollect & _).
  split; [exact Hconnect|apply Hcollect].
Defined.
